(** * Approximate numbers: [github.com/filmil/approx]

    A shallow embedding of [pkg/approx/approx.go].  Go's [float64] is IEEE-754
    binary64; it is modelled by [spec_float] of the Standard Library with
    precision 53 and maximal exponent 1024, so every arithmetic operator of
    the source ([+], [-], [*], [/], [<], [<=], [math.Abs]) is the correctly
    rounded operation of [SpecFloat]. *)

From Stdlib Require Import ZArith NArith Bool List Lia.
From Stdlib Require Import Ascii String.
From Stdlib Require Import HexadecimalString HexadecimalN.
From Stdlib Require Import Floats.SpecFloat.
Import ListNotations.

Local Open Scope Z_scope.

(** ** Go's [float64] *)

Module F64.

Definition prec : Z := 53.
Definition emax : Z := 1024.

(** Signed zeros, infinities, finite numbers [(-1)^s * m * 2^e], and one
    NaN that stands for every NaN of the machine: the sign and the payload
    of a NaN are not kept. *)
Definition float64 : Type := spec_float.

Definition add : float64 -> float64 -> float64 := SFadd prec emax.
Definition sub : float64 -> float64 -> float64 := SFsub prec emax.
Definition mul : float64 -> float64 -> float64 := SFmul prec emax.
Definition div : float64 -> float64 -> float64 := SFdiv prec emax.
Definition ltb : float64 -> float64 -> bool := SFltb.
Definition leb : float64 -> float64 -> bool := SFleb.
Definition eqb : float64 -> float64 -> bool := SFeqb.

(** [math.Abs]: clears the sign bit; a NaN stays a NaN. *)
Definition Abs : float64 -> float64 := SFabs.

Definition NaN : float64 := S754_nan.
Definition pInf : float64 := S754_infinity false.
Definition pZero : float64 := S754_zero false.

(** An untyped integer constant converted to [float64]. *)
Definition of_Z (n : Z) : float64 := binary_normalize prec emax n 0 false.

(** A decimal constant [a/b] converted to [float64] (for [a], [b] exact
    integers the quotient is rounded once, as the compiler does). *)
Definition of_ratio (a b : Z) : float64 := div (of_Z a) (of_Z b).

Definition is_nan (x : float64) : bool :=
  match x with S754_nan => true | _ => false end.

Definition is_zero (x : float64) : bool :=
  match x with S754_zero _ => true | _ => false end.

Definition is_inf (x : float64) : bool :=
  match x with S754_infinity _ => true | _ => false end.

(** Finite in Go's sense: neither an infinity nor a NaN. *)
Definition is_finite (x : float64) : bool :=
  match x with S754_zero _ | S754_finite _ _ _ => true | _ => false end.

(** The sign bit is not set (a NaN carries no sign in this model). *)
Definition sign_clear (x : float64) : bool :=
  match x with
  | S754_nan => true
  | S754_zero s | S754_infinity s | S754_finite s _ _ => negb s
  end.

End F64.

Import F64.

Declare Scope f64_scope.
Delimit Scope f64_scope with f64.
Infix "+" := add : f64_scope.
Infix "-" := sub : f64_scope.
Infix "*" := mul : f64_scope.
Infix "/" := div : f64_scope.
Infix "<?" := ltb : f64_scope.
Infix "<=?" := leb : f64_scope.

(** ** The parts of Go's standard library the package calls

    [strings.Map], [strings.Split], [unicode.IsSpace], the UTF-8 decoding
    behind them, the [%p] verb and [fmt.Errorf].  Go strings are byte
    sequences: they are modelled by [string], whose characters are bytes. *)

Module Go.

Local Open Scope string_scope.
Local Open Scope Z_scope.

(** A rune is an [int32] code point. *)
Definition rune : Type := Z.

Definition RuneError : rune := 65533.

Definition byteZ (c : ascii) : Z := Z.of_N (N_of_ascii c).
Definition Zbyte (z : Z) : ascii := ascii_of_N (Z.to_N z).

Definition inRange (lo hi : Z) (c : ascii) : bool :=
  (lo <=? byteZ c) && (byteZ c <=? hi).

(** The six payload bits of a continuation byte [10xxxxxx]. *)
Definition cont (c : ascii) : Z := Z.land (byteZ c) 63.

(** [utf8.DecodeRuneInString]: the first rune of [s] and its width in
    bytes; an invalid or short encoding is [(RuneError, 1)], and the empty
    string is [(RuneError, 0)]. *)
Definition DecodeRuneInString (s : string) : rune * nat :=
  match s with
  | EmptyString => (RuneError, 0%nat)
  | String b0 s1 =>
    let x := byteZ b0 in
    if x <? 128 then (x, 1%nat)
    else if (x <? 194) || (244 <? x) then (RuneError, 1%nat)
    else
      let lo := if x =? 224 then 160 else if x =? 240 then 144 else 128 in
      let hi := if x =? 237 then 159 else if x =? 244 then 143 else 191 in
      match s1 with
      | EmptyString => (RuneError, 1%nat)
      | String b1 s2 =>
        if negb (inRange lo hi b1) then (RuneError, 1%nat)
        else if x <? 224 then
          (Z.lor (Z.shiftl (Z.land x 31) 6) (cont b1), 2%nat)
        else
          match s2 with
          | EmptyString => (RuneError, 1%nat)
          | String b2 s3 =>
            if negb (inRange 128 191 b2) then (RuneError, 1%nat)
            else if x <? 240 then
              (Z.lor (Z.shiftl (Z.land x 15) 12)
                 (Z.lor (Z.shiftl (cont b1) 6) (cont b2)), 3%nat)
            else
              match s3 with
              | EmptyString => (RuneError, 1%nat)
              | String b3 _ =>
                if negb (inRange 128 191 b3) then (RuneError, 1%nat)
                else
                  (Z.lor (Z.shiftl (Z.land x 7) 18)
                     (Z.lor (Z.shiftl (cont b1) 12)
                        (Z.lor (Z.shiftl (cont b2) 6) (cont b3))), 4%nat)
              end
          end
      end
  end.

(** The bytes [strings.Builder.WriteRune] appends for a non-negative rune;
    a surrogate or a rune past [0x10FFFF] is written as [RuneError]. *)
Definition EncodeRune (r : rune) : string :=
  let tail k := Zbyte (Z.lor 128 (Z.land (Z.shiftr r k) 63)) in
  if r <? 128 then String (Zbyte r) ""
  else if r <? 2048 then
    String (Zbyte (Z.lor 192 (Z.shiftr r 6))) (String (tail 0) "")
  else if ((55296 <=? r) && (r <=? 57343)) || (1114111 <? r) then
    String (Zbyte 239) (String (Zbyte 191) (String (Zbyte 189) ""))
  else if r <? 65536 then
    String (Zbyte (Z.lor 224 (Z.shiftr r 12)))
      (String (tail 6) (String (tail 0) ""))
  else
    String (Zbyte (Z.lor 240 (Z.shiftr r 18)))
      (String (tail 12) (String (tail 6) (String (tail 0) ""))).

(** [unicode.IsSpace]: the Latin-1 cases of its [switch], then the
    [White_Space] range table. *)
Definition IsSpace (r : rune) : bool :=
  if (0 <=? r) && (r <=? 255) then
    ((9 <=? r) && (r <=? 13)) || (r =? 32) || (r =? 133) || (r =? 160)
  else
    (r =? 5760) || ((8192 <=? r) && (r <=? 8202)) || (r =? 8232)
    || (r =? 8233) || (r =? 8239) || (r =? 8287) || (r =? 12288).

(** [strings.Map]: every rune [c] of [s] is replaced by [mapping c], or
    dropped when [mapping c] is negative.  [skip] counts the bytes of the
    current rune still to pass over. *)
Fixpoint Map_from (mapping : rune -> rune) (s : string) (skip : nat)
  : string :=
  match s with
  | EmptyString => ""
  | String _ s' =>
    match skip with
    | S k => Map_from mapping s' k
    | O =>
      let '(c, width) := DecodeRuneInString s in
      let r := mapping c in
      (if r <? 0 then "" else EncodeRune r) ++ Map_from mapping s' (width - 1)
    end
  end.

Definition Map (mapping : rune -> rune) (s : string) : string :=
  Map_from mapping s 0.

(** [strings.Split] for a non-empty separator: the substrings between the
    non-overlapping occurrences of [sep], found left to right. *)
Fixpoint Split_from (sep s : string) (skip : nat) : list string :=
  match s with
  | EmptyString => [""]
  | String c s' =>
    match skip with
    | S k => Split_from sep s' k
    | O =>
      if prefix sep s then "" :: Split_from sep s' (String.length sep - 1)
      else
        match Split_from sep s' 0 with
        | hd :: tl => String c hd :: tl
        | [] => [String c ""]
        end
    end
  end.

Definition Split (s sep : string) : list string := Split_from sep s 0.

(** A function value [func(float64) float64]: the address of its code and
    what a call computes. *)
Record func : Type := mkfunc { addr : N; call : float64 -> float64 }.

(** [fmt.Sprintf("%p", f)] *)
Definition Sprintf_p (f : func) : string :=
  "0x" ++ NilZero.string_of_uint (N.to_hex_uint (addr f)).

(** The operands of a [%v] verb in the package's error messages. *)
Inductive operand : Type :=
| OFloat (x : float64)
| OStrings (l : list string).

(** An [error] made by [fmt.Errorf(format, operands...)]. *)
Record error : Type := Errorf { format : string; operands : list operand }.

(** [strconv.ParseFloat(s, 64)] on decimal input, after its
    documentation: an optional sign, digits with an optional point, an
    optional decimal exponent, or one of [inf], [infinity], [nan] in any
    case; the result is the nearest [float64], ties to even; a value that
    rounds to an infinity is a range error.  [None] is a non-nil error.
    Hexadecimal input and digit separators are not covered. *)
Definition isDigit (c : ascii) : bool :=
  (48 <=? byteZ c) && (byteZ c <=? 57).

Fixpoint readDigits (s : string) (acc n : Z) : Z * Z * string :=
  match s with
  | String c s' =>
    if isDigit c then readDigits s' (10 * acc + (byteZ c - 48)) (n + 1)
    else (acc, n, s)
  | EmptyString => (acc, n, s)
  end.

Definition readSign (s : string) : bool * string :=
  match s with
  | String "+" s' => (false, s')
  | String "-" s' => (true, s')
  | _ => (false, s)
  end.

Definition toLower (c : ascii) : ascii :=
  if (65 <=? byteZ c) && (byteZ c <=? 90) then Zbyte (byteZ c + 32) else c.

Fixpoint lower (s : string) : string :=
  match s with
  | String c s' => String (toLower c) (lower s')
  | EmptyString => EmptyString
  end.

(** The [float64] nearest to [(-1)^neg * D * 10^E]. *)
Definition decimalValue (neg : bool) (D E : Z) : float64 :=
  match D with
  | Z0 => S754_zero neg
  | Zpos d =>
    if 0 <=? E then binary_round prec emax neg (d * Z.to_pos (10 ^ E)) 0
    else div (S754_finite neg d 0)
             (S754_finite false (Z.to_pos (10 ^ (- E))) 0)
  | Zneg _ => NaN
  end.

Definition special (s : string) : option float64 :=
  let '(neg, r) := readSign (lower s) in
  if (r =? "inf")%string || (r =? "infinity")%string
  then Some (S754_infinity neg)
  else if (lower s =? "nan")%string then Some NaN
  else None.

Definition ParseFloat (s : string) : option float64 :=
  match special s with
  | Some x => Some x
  | None =>
    let '(neg, s1) := readSign s in
    let '(ip, ni, s2) := readDigits s1 0 0 in
    let '(D, nf, s3) :=
      match s2 with
      | String "." t => readDigits t ip 0
      | _ => (ip, 0, s2)
      end in
    if ni + nf =? 0 then None
    else
      let finish (E : Z) :=
        let x := decimalValue neg D (E - nf) in
        if is_inf x then None else Some x in
      match s3 with
      | EmptyString => finish 0
      | String c t =>
        if (toLower c =? "e")%char then
          let '(eneg, t1) := readSign t in
          let '(ev, ne, t2) := readDigits t1 0 0 in
          if ne =? 0 then None
          else match t2 with
               | EmptyString => finish (if eneg then - ev else ev)
               | _ => None
               end
        else None
      end
  end.

End Go.

(** ** Package [approx] *)

Module approx.

Local Open Scope string_scope.
Local Open Scope Z_scope.

(** [type Float64 struct { val, delta float64 }] *)
Record Float64 : Type := mkFloat64 { val : float64; delta : float64 }.

(** The zero value [Float64{}]. *)
Definition zeroFloat64 : Float64 := mkFloat64 pZero pZero.

(** [func Parse(s string) (Float64, error)], over [strconv.ParseFloat(_, 64)]
    (taken as [ParseFloat], [None] standing for a non-nil error). *)
Definition Parse (ParseFloat : string -> option float64) (s : string)
  : Float64 * option Go.error :=
  let s := Go.Map (fun r => if Go.IsSpace r then -1 else r) s in
  let splitstr := Go.Split s "±" in
  match splitstr with
  | [s0] =>
    match ParseFloat s0 with
    | None =>
      (zeroFloat64,
       Some (Go.Errorf "could not parse as exact float: %v" [Go.OStrings splitstr]))
    | Some val => (mkFloat64 val pZero, None)
    end
  | [s0; s1] =>
    match ParseFloat s0 with
    | None =>
      (zeroFloat64,
       Some (Go.Errorf "could not parse as exact float: %v" [Go.OStrings splitstr]))
    | Some val =>
      match ParseFloat s1 with
      | None =>
        (zeroFloat64,
         Some (Go.Errorf "could not parse as delta float: %v" [Go.OStrings splitstr]))
      | Some delta => (mkFloat64 val (Abs delta), None)
      end
    end
  | _ =>
    (zeroFloat64,
     Some (Go.Errorf "could not parse as approximate number: %v" [Go.OStrings splitstr]))
  end.

(** [func New(val, delta float64) Float64] *)
Definition New (val delta : float64) : Float64 :=
  mkFloat64 val (Abs delta).

(** [func NewMinMax(min, max float64) (Float64, error)] *)
Definition NewMinMax (min max : float64) : Float64 * option Go.error :=
  if (max <? min)%f64 then
    (zeroFloat64,
     Some (Go.Errorf "min must be less or equal to max: min:%v, max:%v"
             [Go.OFloat min; Go.OFloat max]))
  else
    let val := ((min + max) / of_Z 2)%f64 in
    let delta := Abs ((max - min) / of_Z 2)%f64 in
    (New val delta, None).

(** [func Add(a, b Float64) Float64] *)
Definition Add (a b : Float64) : Float64 :=
  New (val a + val b)%f64 (delta a + delta b)%f64.

(** [func Sub(a, b Float64) Float64] *)
Definition Sub (a b : Float64) : Float64 :=
  New (val a - val b)%f64 (delta a + delta b)%f64.

(** [func Mul(a, b Float64) Float64] *)
Definition Mul (a b : Float64) : Float64 :=
  let relA := Abs (delta a / val a)%f64 in
  let relB := Abs (delta b / val b)%f64 in
  let rel := (relA + relB)%f64 in
  let val := (val a * val b)%f64 in
  let delta := Abs (val * rel)%f64 in
  New val delta.

(** [func Div(a, b Float64) Float64] *)
Definition Div (a b : Float64) : Float64 :=
  let relA := Abs (delta a / val a)%f64 in
  let relB := Abs (delta b / val b)%f64 in
  let rel := (relA + relB)%f64 in
  let val := (val a / val b)%f64 in
  let delta := Abs (val * rel)%f64 in
  New val delta.

(** [func eqFunc(f1, f2 func(float64) float64) bool] *)
Definition eqFunc (f1 f2 : Go.func) : bool :=
  String.eqb (Go.Sprintf_p f1) (Go.Sprintf_p f2).

(** Methods with receiver [Float64]. *)
Module Float64.

(** [func (f Float64) String() string], over the [%v] rendering of a
    [float64] (taken as [fmtv]). *)
Definition String (fmtv : float64 -> string) (f : Float64) : string :=
  fmtv (val f) ++ "±" ++ fmtv (delta f).

(** [func (f Float64) Value() float64] *)
Definition Value (f : Float64) : float64 := val f.

(** [func (f Float64) Delta() float64] *)
Definition Delta (f : Float64) : float64 := delta f.

(** [func (f Float64) Min() float64] *)
Definition Min (f : Float64) : float64 := (val f - delta f)%f64.

(** [func (f Float64) Max() float64] *)
Definition Max (f : Float64) : float64 := (val f + delta f)%f64.

(** [func (f Float64) RelDelta() float64] *)
Definition RelDelta (f : Float64) : float64 := Abs (delta f / val f)%f64.

(** [func (f Float64) Mul(c float64) Float64] *)
Definition Mul (f : Float64) (c : float64) : Float64 :=
  New (c * val f)%f64 (Abs (c * delta f)%f64).

(** [func (f Float64) Lt(t Float64) bool] *)
Definition Lt (f t : Float64) : bool :=
  (val f + delta f <? val t - delta t)%f64.

(** [func (f Float64) Le(t Float64) bool] *)
Definition Le (f t : Float64) : bool :=
  (val f + delta f <=? val t - delta t)%f64.

(** [func (f Float64) Gt(t Float64) bool] *)
Definition Gt (f t : Float64) : bool := Le t f.

(** [func (f Float64) Ge(t Float64) bool] *)
Definition Ge (f t : Float64) : bool := Lt t f.

Section WithMath.

(** [math.Log] and [math.Exp] as function values. *)
Variables math_Log math_Exp : Go.func.

(** [func (f Float64) applyLog() Float64] *)
Definition applyLog (f : Float64) : Float64 :=
  let delta := (delta f / val f)%f64 in
  let val := Go.call math_Log (val f) in
  New val delta.

(** [func (f Float64) applyExp() Float64] *)
Definition applyExp (f : Float64) : Float64 :=
  let val := Go.call math_Exp (val f) in
  let delta := (val * delta f)%f64 in
  New val delta.

(** [func (f Float64) Apply(fx func(float64) float64, eps float64) Float64] *)
Definition Apply (f : Float64) (fx : Go.func) (eps : float64) : Float64 :=
  if eqFunc fx math_Log then applyLog f
  else if eqFunc fx math_Exp then applyExp f
  else
    let fmin := Go.call fx (val f - eps)%f64 in
    let fmax := Go.call fx (val f + eps)%f64 in
    let d := (of_Z 2 * eps)%f64 in
    let dfx := ((fmax - fmin) / d)%f64 in
    New (Go.call fx (val f)) (Abs (dfx * delta f)%f64).

End WithMath.

End Float64.

(** [func Overlap(f, t Float64) bool] *)
Definition Overlap (f t : Float64) : bool :=
  negb (Float64.Le f t) && negb (Float64.Le t f).

End approx.

Import approx.

(** ** Sample values used by the examples *)

Module Sample.

Local Open Scope string_scope.

(** A user function, [func(x float64) float64 { return x * x }]. *)
Definition square : Go.func := Go.mkfunc 4861952 (fun x => (x * x)%f64).

(** Function values standing for [math.Log] and [math.Exp]: the addresses
    are arbitrary, the bodies agree with the library at the one point the
    examples evaluate them ([Log(1) = 0], [Exp(1) = 2.718281828459045]). *)
Definition Log : Go.func :=
  Go.mkfunc 4771360 (fun x => if eqb x (of_Z 1) then pZero else NaN).
Definition Exp : Go.func :=
  Go.mkfunc 4768224
    (fun x => if eqb x (of_Z 1)
              then of_ratio 2718281828459045 1000000000000000 else NaN).

(** The [%v] rendering of the floats the examples print. *)
Definition fmtv (x : float64) : string :=
  if eqb x (of_ratio 42 10) then "4.2"
  else if eqb x (of_ratio 3 10) then "0.3"
  else if eqb x (of_Z 100) then "100"
  else if eqb x (of_ratio 4999999999997229 2500000000000000)
       then "1.9999999999988916"
  else "0".

End Sample.

(** ** Predicates of the statements *)

(** The sign of a rounded result is the sign handed to the rounding. *)
Definition has_sign (s : bool) (x : float64) : bool :=
  match x with
  | S754_nan => true
  | S754_zero s' | S754_infinity s' | S754_finite s' _ _ => Bool.eqb s s'
  end.

(** The canonical binary64 form of a positive integer below [2^53]: its
    mantissa shifted to 53 digits. *)
Definition canon (s : bool) (n : positive) : float64 :=
  let d := Zpos (digits2_pos n) in
  S754_finite s (Z.to_pos (Zpos n * 2 ^ (53 - d))) (d - 53).

(** An approximate number: a [Float64] whose [delta] has no sign bit, which
    is what every exported constructor and operator stores. *)
Definition approximate (f : Float64) : Prop := sign_clear (delta f) = true.

(** What holds of a delta stored through [math.Abs]: its sign bit is clear,
    it is never below zero, and it is at least zero unless it is a NaN. *)
Definition delta_unsigned (f : Float64) : Prop :=
  sign_clear (Float64.Delta f) = true
  /\ (Float64.Delta f <? pZero)%f64 = false
  /\ (is_nan (Float64.Delta f) = false -> (pZero <=? Float64.Delta f)%f64 = true).

(** The mapping [Parse] hands to [strings.Map]. *)
Definition strip : Go.rune -> Go.rune :=
  fun r => if Go.IsSpace r then -1 else r.

(** A string of ASCII bytes none of which is white space. *)
Fixpoint plain (s : string) : bool :=
  match s with
  | EmptyString => true
  | String c s' =>
    (Go.byteZ c <? 128) && negb (Go.IsSpace (Go.byteZ c)) && plain s'
  end.

(** What [fmt] and [strconv] promise of a finite [x]: its [%v] rendering is
    plain ASCII (digits, sign, point and exponent) and [ParseFloat] reads it
    back as [x]. *)
Definition renders_faithfully
  (fmtv : float64 -> string) (ParseFloat : string -> option float64)
  (x : float64) : Prop :=
  plain (fmtv x) = true /\ ParseFloat (fmtv x) = Some x.

(** Go's unary minus on a [float64]. *)
Definition neg : float64 -> float64 := SFopp.

(** A finite float other than a zero. *)
Definition finite_nonzero (x : float64) : bool :=
  match x with S754_finite _ _ _ => true | _ => false end.

(** The negative zero. *)
Definition is_neg_zero (x : float64) : bool :=
  match x with S754_zero true => true | _ => false end.

(** The pieces of an input, joined by the separator. *)
Fixpoint join (parts : list string) : string :=
  match parts with
  | [] => EmptyString
  | s :: rest =>
    match rest with
    | [] => s
    | _ :: _ => (s ++ "±" ++ join rest)%string
    end
  end.

(** A string made of ASCII bytes and separators. *)
Fixpoint tidy (s : string) : bool :=
  match s with
  | EmptyString => true
  | String c s' =>
    if Go.byteZ c <? 128 then tidy s'
    else
      match s' with
      | String c2 s'' =>
        (Go.byteZ c =? 194) && (Go.byteZ c2 =? 177) && tidy s''
      | EmptyString => false
      end
  end.

(** A string of ASCII white space. *)
Fixpoint blank (s : string) : bool :=
  match s with
  | EmptyString => true
  | String c s' =>
    (Go.byteZ c <? 128) && Go.IsSpace (Go.byteZ c) && blank s'
  end.

(** Whether a result carries a non-nil error. *)
Definition failed {A : Type} (r : A * option Go.error) : bool :=
  match snd r with Some _ => true | None => false end.

(** ** Rounding, and the exact value of a float *)

(** The state of a right shift by [k] places of the mantissa [m]: the
    quotient, and where the remainder stands against one half. *)
Definition shr_inv (m k : Z) (r : shr_record) : Prop :=
  0 <= shr_m r
  /\ match shr_r r, shr_s r with
     | false, false => m = shr_m r * 2 ^ k
     | false, true =>
       0 < k /\ shr_m r * 2 ^ k < m < shr_m r * 2 ^ k + 2 ^ (k - 1)
     | true, false => 0 < k /\ m = shr_m r * 2 ^ k + 2 ^ (k - 1)
     | true, true =>
       0 < k /\ shr_m r * 2 ^ k + 2 ^ (k - 1) < m < (shr_m r + 1) * 2 ^ k
     end.

(** The mantissa [m] shifted right by [k] places and rounded to nearest,
    ties to even. *)
Definition rne (m k : Z) : Z :=
  let r := fst (shr (Build_shr_record m false false) 0 k) in
  round_nearest_even (shr_m r) (loc_of_shr_record r).

(** The float a rounding ends in: mantissa [m] at exponent [e]. *)
Definition out (s : bool) (m e : Z) : float64 :=
  match m with
  | Z0 => S754_zero s
  | Zpos p => if e <=? 971 then S754_finite s p e else S754_infinity s
  | Zneg _ => NaN
  end.

(** The exponent of the last place of a number of [e] binary digits. *)
Definition fexp64 (e : Z) : Z := Z.max (e - 53) (-1074).

(** Exponent and mantissa of the rounding of [p * 2^e]. *)
Definition round_pair (p : positive) (e : Z) : Z * Z :=
  let fe := fexp64 (Zpos (digits2_pos p) + e) in
  if fe <=? e then (fe, Zpos p * 2 ^ (e - fe))
  else
    let q := rne (Zpos p) (fe - e) in
    if q =? 2 ^ 53 then (fe + 1, 2 ^ 52) else (fe, q).

(** Roundings compared: by exponent, then by mantissa. *)
Definition lexle (a b : Z * Z) : Prop :=
  fst a < fst b \/ (fst a = fst b /\ snd a <= snd b).

(** The value of a finite float in units of [2^-1074]. *)
Definition units (x : float64) : Z :=
  match x with
  | S754_finite s m e => cond_Zopp s (Zpos m) * 2 ^ (e + 1074)
  | _ => 0
  end.

(** A float as the machine holds it: a finite number has its mantissa and
    exponent in canonical form. *)
Definition valid (x : float64) : bool := valid_binary prec emax x.

(** The integer [z], in units of [2^-1074], is the value of a float. *)
Definition representable (z : Z) : Prop :=
  exists x : float64, valid x = true /\ is_finite x = true /\ units x = z.

(** * Properties *)

(** ** Facts about binary64 arithmetic *)

Section FloatFacts.

Lemma Abs_idempotent (x : float64) : Abs (Abs x) = Abs x.
Proof. destruct x; reflexivity. Qed.

Lemma Abs_sign_clear (x : float64) : sign_clear (Abs x) = true.
Proof. destruct x; reflexivity. Qed.

Lemma Abs_of_sign_clear (x : float64) : sign_clear x = true -> Abs x = x.
Proof. destruct x as [[]|[]| |[] m e]; simpl; congruence. Qed.

Lemma binary_round_aux_sign s m e l :
  has_sign s (binary_round_aux prec emax s m e l) = true.
Proof.
  unfold binary_round_aux.
  destruct (shr_fexp prec emax m e l) as [mrs1 e1].
  destruct (shr_fexp prec emax _ e1 loc_Exact) as [mrs2 e2].
  destruct (shr_m mrs2); [ | destruct (Z.leb _ _) | ];
    simpl; auto using Bool.eqb_reflx.
Qed.

Lemma binary_round_sign s m e :
  has_sign s (binary_round prec emax s m e) = true.
Proof.
  unfold binary_round.
  destruct (shl_align m e _) as [mz ez].
  apply binary_round_aux_sign.
Qed.

Lemma has_sign_false x : has_sign false x = sign_clear x.
Proof. destruct x as [[]|[]| |[] m e]; reflexivity. Qed.

(** The sum of two floats without sign has no sign. *)
Lemma add_sign_clear (x y : float64) :
  sign_clear x = true -> sign_clear y = true ->
  sign_clear (x + y)%f64 = true.
Proof.
  destruct x as [[]|[]| |[] mx ex]; destruct y as [[]|[]| |[] my ey];
    simpl; try congruence; intros _ _.
  unfold add, SFadd, cond_Zopp.
  repeat match goal with
         | |- context [fst (shl_align ?m ?e ?z)] =>
             destruct (shl_align m e z); simpl fst
         end.
  unfold binary_normalize. simpl Z.add.
  rewrite <- has_sign_false. apply binary_round_sign.
Qed.

(** Rounding a non-negative mantissa never makes a NaN. *)
Lemma iter_pos_invariant {A : Type} (P : A -> Prop) (f : A -> A) :
  (forall x, P x -> P (f x)) ->
  forall (p : positive) (x : A), P x -> P (iter_pos f p x).
Proof.
  intros Hf. induction p as [p IH|p IH|]; intros x Hx; simpl; auto.
Qed.

Lemma shr_1_nonneg (mrs : shr_record) :
  0 <= shr_m mrs -> 0 <= shr_m (shr_1 mrs).
Proof.
  destruct mrs as [m r t]. simpl.
  destruct m as [|[q|q|]|[q|q|]]; simpl; lia.
Qed.

Lemma shr_fexp_nonneg (m e : Z) (l : location) :
  0 <= m -> 0 <= shr_m (fst (shr_fexp prec emax m e l)).
Proof.
  intros Hm. unfold shr_fexp, shr.
  assert (H0 : 0 <= shr_m (shr_record_of_loc m l))
    by (destruct l as [|[]]; exact Hm).
  destruct (fexp prec emax (Zdigits2 m + e) - e) as [|n|n]; simpl; auto.
  apply (iter_pos_invariant (fun r => 0 <= shr_m r)); auto using shr_1_nonneg.
Qed.

Lemma round_nearest_even_nonneg (m : Z) (l : location) :
  0 <= m -> 0 <= round_nearest_even m l.
Proof.
  intros Hm. destruct l as [|[]]; simpl; try lia.
  destruct (Z.even m); lia.
Qed.

Lemma binary_round_aux_not_nan (s : bool) (m e : Z) (l : location) :
  0 <= m -> is_nan (binary_round_aux prec emax s m e l) = false.
Proof.
  intros Hm. unfold binary_round_aux.
  pose proof (shr_fexp_nonneg m e l Hm) as H1.
  destruct (shr_fexp prec emax m e l) as [mrs1 e1]. simpl in H1.
  pose proof (shr_fexp_nonneg
                (round_nearest_even (shr_m mrs1) (loc_of_shr_record mrs1))
                e1 loc_Exact (round_nearest_even_nonneg _ _ H1)) as H2.
  destruct (shr_fexp prec emax _ e1 loc_Exact) as [mrs2 e2]. simpl in H2.
  destruct (shr_m mrs2); [ | destruct (Z.leb _ _) | lia ]; reflexivity.
Qed.

Lemma div_finite_not_nan (sx sy : bool) (mx my : positive) (ex ey : Z) :
  is_nan (S754_finite sx mx ex / S754_finite sy my ey)%f64 = false.
Proof.
  unfold div, SFdiv, SFdiv_core_binary.
  set (sh := _ - _ - Z.min _ _).
  set (m' := match sh with Z0 => Zpos mx | Zpos _ => Z.shiftl (Zpos mx) sh
                      | Zneg _ => 0 end).
  assert (Hm' : 0 <= m').
  { subst m'. destruct sh; try lia. apply Z.shiftl_nonneg. lia. }
  pose proof (Z.div_pos m' (Zpos my) Hm' eq_refl) as Hq.
  unfold Z.div in Hq.
  destruct (Z.div_eucl m' (Zpos my)) as [q r]. simpl in Hq.
  apply binary_round_aux_not_nan. exact Hq.
Qed.

(** A quotient is a NaN only for a NaN operand, [0/0] or [Inf/Inf]. *)
Lemma div_nan_iff (x y : float64) :
  is_nan (x / y)%f64
  = is_nan x || is_nan y || (is_zero x && is_zero y)
    || (is_inf x && is_inf y).
Proof.
  destruct x as [sx|sx| |sx mx ex]; destruct y as [sy|sy| |sy my ey];
    try reflexivity.
  rewrite div_finite_not_nan. reflexivity.
Qed.

Lemma SFcompare_refl (x : float64) :
  is_nan x = false -> SFcompare x x = Some Eq.
Proof.
  destruct x as [[]|[]| |[] m e]; simpl; try discriminate; intros _;
    try reflexivity;
    rewrite Z.compare_refl; change (Pos.compare_cont Eq m m) with (m ?= m)%positive;
    rewrite Pos.compare_refl; reflexivity.
Qed.

End FloatFacts.

(** ** Small integers are computed with exactly *)

Section ExactIntegers.

(** [digits2_pos p] is the number of binary digits of [p]. *)
Lemma digits2_pos_bounds (p : positive) :
  2 ^ (Zpos (digits2_pos p) - 1) <= Zpos p < 2 ^ Zpos (digits2_pos p).
Proof.
  induction p as [p IH|p IH|]; simpl digits2_pos.
  - rewrite Pos2Z.inj_succ, Pos2Z.inj_xI.
    replace (Z.succ (Zpos (digits2_pos p)) - 1)
      with (Z.succ (Zpos (digits2_pos p) - 1)) by lia.
    rewrite !Z.pow_succ_r by lia.
    destruct IH as [IH1 IH2]. revert IH1 IH2.
    generalize (2 ^ (Zpos (digits2_pos p) - 1)) (2 ^ Zpos (digits2_pos p)).
    intros; lia.
  - rewrite Pos2Z.inj_succ; change (Zpos p~0) with (2 * Zpos p).
    replace (Z.succ (Zpos (digits2_pos p)) - 1)
      with (Z.succ (Zpos (digits2_pos p) - 1)) by lia.
    rewrite !Z.pow_succ_r by lia.
    destruct IH as [IH1 IH2]. revert IH1 IH2.
    generalize (2 ^ (Zpos (digits2_pos p) - 1)) (2 ^ Zpos (digits2_pos p)).
    intros; lia.
  - simpl. lia.
Qed.

Lemma digits2_pos_unique (p : positive) (d : Z) :
  2 ^ (d - 1) <= Zpos p < 2 ^ d -> Zpos (digits2_pos p) = d.
Proof.
  intros [Hlo Hhi]. pose proof (digits2_pos_bounds p) as [Blo Bhi].
  set (d' := Zpos (digits2_pos p)) in *.
  assert (Hd : 0 < d).
  { destruct (Z.lt_ge_cases 0 d) as [?|Hn]; [ assumption | ].
    rewrite (Z.pow_neg_r 2 (d - 1)) in Hlo by lia.
    destruct (Z.eq_dec d 0) as [->|]; [ simpl in Hhi; lia | ].
    rewrite (Z.pow_neg_r 2 d) in Hhi by lia. lia. }
  destruct (Z.lt_trichotomy d' d) as [Hlt|[Heq|Hgt]]; [ | assumption | ].
  - assert (2 ^ d' <= 2 ^ (d - 1)) by (apply Z.pow_le_mono_r; lia). lia.
  - assert (2 ^ d <= 2 ^ (d' - 1)) by (apply Z.pow_le_mono_r; lia). lia.
Qed.

Lemma iter_xO_value (m j : positive) :
  Zpos (Pos.iter xO m j) = Zpos m * 2 ^ Zpos j.
Proof.
  rewrite <- Z.shiftl_mul_pow2 by lia. simpl Z.shiftl.
  apply (Pos.iter_swap_gen _ _ Zpos xO (Z.mul 2)); reflexivity.
Qed.

Lemma shr_1_double (z : Z) :
  shr_1 (Build_shr_record (2 * z) false false)
  = Build_shr_record z false false.
Proof. destruct z as [|q|q]; reflexivity. Qed.

Lemma iter_shr_1_exact (j : positive) : forall z : Z,
  iter_pos shr_1 j (Build_shr_record (z * 2 ^ Zpos j) false false)
  = Build_shr_record z false false.
Proof.
  induction j as [j IH|j IH|]; intros z; cbn [iter_pos].
  - change (Zpos j~1) with (2 * Zpos j + 1).
    replace (z * 2 ^ (2 * Zpos j + 1))
      with (2 * ((z * 2 ^ Zpos j) * 2 ^ Zpos j))
      by (rewrite Z.pow_add_r, Z.pow_1_r by lia;
          replace (2 * Zpos j) with (Zpos j + Zpos j) by lia;
          rewrite Z.pow_add_r by lia; ring).
    rewrite shr_1_double, !IH. reflexivity.
  - change (Zpos j~0) with (2 * Zpos j).
    replace (z * 2 ^ (2 * Zpos j)) with ((z * 2 ^ Zpos j) * 2 ^ Zpos j)
      by (replace (2 * Zpos j) with (Zpos j + Zpos j) by lia;
          rewrite Z.pow_add_r by lia; ring).
    rewrite !IH. reflexivity.
  - rewrite Z.pow_1_r, Z.mul_comm. apply shr_1_double.
Qed.

(** Rounding a mantissa that is the canonical one followed by [j] zero
    bits, [j] places below the canonical exponent. *)
Lemma binary_round_aux_exact (s : bool) (M n : positive) (j : Z) :
  let d := Zpos (digits2_pos n) in
  0 <= j -> d <= 53 ->
  Zpos M = Zpos n * 2 ^ (53 - d) * 2 ^ j ->
  binary_round_aux prec emax s (Zpos M) (d - 53 - j) loc_Exact = canon s n.
Proof.
  intros d Hj Hd HM.
  pose proof (digits2_pos_bounds n) as [Blo Bhi]. fold d in Blo, Bhi.
  set (m := Zpos n * 2 ^ (53 - d)) in *.
  assert (Hm : 2 ^ 52 <= m < 2 ^ 53).
  { assert (E52 : 2 ^ 52 = 2 ^ (d - 1) * 2 ^ (53 - d))
      by (rewrite <- Z.pow_add_r by lia; f_equal; lia).
    assert (E53 : 2 ^ 53 = 2 ^ d * 2 ^ (53 - d))
      by (rewrite <- Z.pow_add_r by lia; f_equal; lia).
    rewrite E52, E53. subst m.
    assert (0 < 2 ^ (53 - d)) by (apply Z.pow_pos_nonneg; lia).
    split; [ apply Z.mul_le_mono_nonneg_r | apply Z.mul_lt_mono_pos_r ]; lia. }
  assert (HdM : Zpos (digits2_pos M) = 53 + j).
  { apply digits2_pos_unique. rewrite HM.
    replace (53 + j - 1) with (52 + j) by lia.
    rewrite !Z.pow_add_r by lia.
    assert (0 < 2 ^ j) by (apply Z.pow_pos_nonneg; lia).
    split; [ apply Z.mul_le_mono_nonneg_r | apply Z.mul_lt_mono_pos_r ]; lia. }
  assert (Hdm : Zpos (digits2_pos (Z.to_pos m)) = 53).
  { apply digits2_pos_unique. rewrite Z2Pos.id by lia. exact Hm. }
  unfold binary_round_aux, shr_fexp, canon. fold d. fold m.
  cbn [Zdigits2 shr_record_of_loc]. rewrite HdM.
  replace (fexp prec emax (53 + j + (d - 53 - j)) - (d - 53 - j)) with j
    by (unfold fexp, SpecFloat.emin, prec, emax; lia).
  assert (Hshr : shr (Build_shr_record (Zpos M) false false) (d - 53 - j) j
                 = (Build_shr_record m false false, d - 53)).
  { unfold shr. destruct j as [|j|j]; [ | | lia ].
    - f_equal; [ | lia ]. rewrite HM, Z.pow_0_r, Z.mul_1_r. reflexivity.
    - rewrite HM, iter_shr_1_exact. f_equal. lia. }
  rewrite Hshr. cbn [shr_m loc_of_shr_record round_nearest_even].
  destruct m as [|m'|m'] eqn:Em; [ lia | | lia ].
  cbn [Zdigits2]. simpl Z.to_pos in Hdm. rewrite Hdm.
  replace (fexp prec emax (53 + (d - 53)) - (d - 53)) with 0
    by (unfold fexp, SpecFloat.emin, prec, emax; lia).
  cbn [shr shr_m].
  replace (d - 53 <=? emax - prec) with true
    by (symmetry; apply Z.leb_le; unfold emax, prec; lia).
  reflexivity.
Qed.


Lemma digits2_pos_le_53 (n : positive) :
  Zpos n < 2 ^ 53 -> Zpos (digits2_pos n) <= 53.
Proof.
  intros Hn. pose proof (digits2_pos_bounds n) as [Blo _].
  destruct (Z.le_gt_cases (Zpos (digits2_pos n)) 53) as [?|Hgt];
    [ assumption | ].
  assert (2 ^ 53 <= 2 ^ (Zpos (digits2_pos n) - 1))
    by (apply Z.pow_le_mono_r; lia).
  lia.
Qed.

Lemma binary_round_exact (s : bool) (P n : positive) (k : Z) :
  0 <= k -> Zpos n < 2 ^ 53 -> Zpos P = Zpos n * 2 ^ k ->
  binary_round prec emax s P (- k) = canon s n.
Proof.
  intros Hk Hn HP.
  pose proof (digits2_pos_le_53 n Hn) as Hd.
  pose proof (digits2_pos_bounds n) as [Blo Bhi].
  set (d := Zpos (digits2_pos n)) in *.
  assert (HdP : Zpos (digits2_pos P) = d + k).
  { apply digits2_pos_unique. rewrite HP.
    replace (d + k - 1) with ((d - 1) + k) by lia.
    rewrite !Z.pow_add_r by lia.
    assert (0 < 2 ^ k) by (apply Z.pow_pos_nonneg; lia).
    split; [ apply Z.mul_le_mono_nonneg_r | apply Z.mul_lt_mono_pos_r ]; lia. }
  unfold binary_round. rewrite HdP.
  replace (fexp prec emax (d + k + - k)) with (d - 53)
    by (unfold fexp, SpecFloat.emin, prec, emax; lia).
  unfold shl_align.
  destruct (d - 53 - - k) as [|q|q] eqn:Ej.
  - replace (- k) with (d - 53 - 0) by lia.
    apply binary_round_aux_exact; try lia. fold d.
    rewrite HP, <- Z.mul_assoc, <- Z.pow_add_r by lia.
    do 2 f_equal. lia.
  - replace (- k) with (d - 53 - Zpos q) by lia.
    apply binary_round_aux_exact; try lia. fold d.
    rewrite HP, <- Z.mul_assoc, <- Z.pow_add_r by lia.
    do 2 f_equal. lia.
  - replace (d - 53) with (d - 53 - 0) by lia.
    apply binary_round_aux_exact; try lia. fold d.
    rewrite iter_xO_value, HP, Z.pow_0_r, Z.mul_1_r.
    rewrite <- Z.mul_assoc, <- Z.pow_add_r by lia.
    do 2 f_equal. lia.
Qed.

(** The float of a small integer. *)
Lemma of_Z_pos (p : positive) :
  Zpos p < 2 ^ 53 -> of_Z (Zpos p) = canon false p.
Proof.
  intros Hp. unfold of_Z, binary_normalize.
  apply (binary_round_exact false p p 0); [ lia | assumption | ].
  rewrite Z.pow_0_r; lia.
Qed.

Lemma of_Z_neg (p : positive) :
  Zpos p < 2 ^ 53 -> of_Z (Zneg p) = canon true p.
Proof.
  intros Hp. unfold of_Z, binary_normalize.
  apply (binary_round_exact true p p 0); [ lia | assumption | ].
  rewrite Z.pow_0_r; lia.
Qed.

(** Rounding an integer given with [k] extra zero bits. *)
Lemma binary_normalize_exact (z k : Z) :
  0 <= k -> Z.abs z < 2 ^ 53 ->
  binary_normalize prec emax (z * 2 ^ k) (- k) false = of_Z z.
Proof.
  intros Hk Hz.
  assert (H2 : 0 < 2 ^ k) by (apply Z.pow_pos_nonneg; lia).
  destruct z as [|p|p].
  - reflexivity.
  - rewrite of_Z_pos by lia.
    destruct (Zpos p * 2 ^ k) as [|P|P] eqn:EP; try lia.
    apply binary_round_exact; lia.
  - rewrite of_Z_neg by lia.
    destruct (Zneg p * 2 ^ k) as [|P|P] eqn:EP; try lia.
    apply binary_round_exact; lia.
Qed.


Lemma canon_mantissa (n : positive) :
  Zpos n < 2 ^ 53 ->
  Zpos (Z.to_pos (Zpos n * 2 ^ (53 - Zpos (digits2_pos n))))
  = Zpos n * 2 ^ (53 - Zpos (digits2_pos n)).
Proof.
  intros Hn. pose proof (digits2_pos_le_53 n Hn).
  apply Z2Pos.id. apply Z.mul_pos_pos; [ lia | ].
  apply Z.pow_pos_nonneg; lia.
Qed.

Lemma shl_align_value (m : positive) (e e' : Z) :
  e' <= e -> Zpos (fst (shl_align m e e')) = Zpos m * 2 ^ (e - e').
Proof.
  intros He. unfold shl_align.
  destruct (e' - e) as [|q|q] eqn:E; simpl fst; try lia.
  - replace (e - e') with 0 by lia. rewrite Z.pow_0_r. lia.
  - rewrite iter_xO_value. do 2 f_equal. lia.
Qed.

Lemma cond_Zopp_mul (s : bool) (x y : Z) :
  cond_Zopp s (x * y) = cond_Zopp s x * y.
Proof. destruct s; simpl; ring. Qed.

(** The aligned mantissa of a canonical float is the integer scaled. *)
Lemma canon_aligned (s : bool) (n : positive) (ez : Z) :
  Zpos n < 2 ^ 53 -> ez <= Zpos (digits2_pos n) - 53 ->
  cond_Zopp s
    (Zpos (fst (shl_align
                  (Z.to_pos (Zpos n * 2 ^ (53 - Zpos (digits2_pos n))))
                  (Zpos (digits2_pos n) - 53) ez)))
  = cond_Zopp s (Zpos n) * 2 ^ (- ez).
Proof.
  intros Hn He. pose proof (digits2_pos_le_53 n Hn).
  rewrite shl_align_value by assumption.
  rewrite canon_mantissa by assumption.
  rewrite <- Z.mul_assoc, <- Z.pow_add_r by lia.
  rewrite cond_Zopp_mul. do 2 f_equal. lia.
Qed.

Lemma add_canon (sa sb : bool) (pa pb : positive) :
  Zpos pa < 2 ^ 53 -> Zpos pb < 2 ^ 53 ->
  Z.abs (cond_Zopp sa (Zpos pa) + cond_Zopp sb (Zpos pb)) < 2 ^ 53 ->
  (canon sa pa + canon sb pb)%f64
  = of_Z (cond_Zopp sa (Zpos pa) + cond_Zopp sb (Zpos pb)).
Proof.
  intros Ha Hb Hab.
  pose proof (digits2_pos_le_53 pa Ha). pose proof (digits2_pos_le_53 pb Hb).
  unfold canon, add, SFadd.
  set (ez := Z.min _ _).
  rewrite !canon_aligned by (assumption || (subst ez; lia)).
  rewrite <- Z.mul_add_distr_r.
  replace ez with (- - ez) at 2 by lia.
  apply binary_normalize_exact; [ subst ez; lia | assumption ].
Qed.

Lemma sub_canon (sa sb : bool) (pa pb : positive) :
  Zpos pa < 2 ^ 53 -> Zpos pb < 2 ^ 53 ->
  Z.abs (cond_Zopp sa (Zpos pa) - cond_Zopp sb (Zpos pb)) < 2 ^ 53 ->
  (canon sa pa - canon sb pb)%f64
  = of_Z (cond_Zopp sa (Zpos pa) - cond_Zopp sb (Zpos pb)).
Proof.
  intros Ha Hb Hab.
  pose proof (digits2_pos_le_53 pa Ha). pose proof (digits2_pos_le_53 pb Hb).
  unfold canon, sub, SFsub.
  set (ez := Z.min _ _).
  rewrite !canon_aligned by (assumption || (subst ez; lia)).
  rewrite <- Z.mul_sub_distr_r.
  replace ez with (- - ez) at 2 by lia.
  apply binary_normalize_exact; [ subst ez; lia | assumption ].
Qed.

(** The float of a small integer, by cases. *)
Lemma of_Z_canon (z : Z) :
  Z.abs z < 2 ^ 53 ->
  of_Z z = match z with
           | Z0 => pZero
           | Zpos p => canon false p
           | Zneg p => canon true p
           end.
Proof.
  destruct z as [|p|p]; intros Hz;
    [ reflexivity | apply of_Z_pos; lia | apply of_Z_neg; lia ].
Qed.

(** Sums and differences of small integers are exact. *)
Lemma add_of_Z (a b : Z) :
  Z.abs a < 2 ^ 53 -> Z.abs b < 2 ^ 53 -> Z.abs (a + b) < 2 ^ 53 ->
  (of_Z a + of_Z b)%f64 = of_Z (a + b).
Proof.
  intros Ha Hb Hab. rewrite (of_Z_canon a Ha), (of_Z_canon b Hb).
  destruct a as [|pa|pa]; destruct b as [|pb|pb];
    try reflexivity;
    try (rewrite (of_Z_canon _ Hab); reflexivity);
    apply add_canon; assumption || lia.
Qed.

Lemma sub_of_Z (a b : Z) :
  Z.abs a < 2 ^ 53 -> Z.abs b < 2 ^ 53 -> Z.abs (a - b) < 2 ^ 53 ->
  (of_Z a - of_Z b)%f64 = of_Z (a - b).
Proof.
  intros Ha Hb Hab. rewrite (of_Z_canon a Ha), (of_Z_canon b Hb).
  destruct a as [|pa|pa]; destruct b as [|pb|pb];
    try reflexivity;
    try (rewrite (of_Z_canon _ Hab); reflexivity);
    apply sub_canon; assumption || lia.
Qed.


Lemma div_eucl_pow2 (x : Z) :
  Z.div_eucl (x * 2 ^ 53) (2 ^ 52) = (2 * x, 0).
Proof.
  pose proof (Z_div_mod (x * 2 ^ 53) (2 ^ 52) eq_refl) as H.
  destruct (Z.div_eucl (x * 2 ^ 53) (2 ^ 52)) as [q r].
  change (2 ^ 53) with 9007199254740992 in H.
  change (2 ^ 52) with 4503599627370496 in H.
  destruct H as [H1 H2]. f_equal; lia.
Qed.

(** Halving an even small integer is exact. *)
Lemma div_canon_2 (s : bool) (p : positive) :
  Zpos p~0 < 2 ^ 53 -> (canon s p~0 / of_Z 2)%f64 = canon s p.
Proof.
  intros Hp.
  assert (Hp' : Zpos p < 2 ^ 53) by lia.
  pose proof (digits2_pos_le_53 _ Hp) as Hd2.
  pose proof (canon_mantissa _ Hp) as Hm.
  change (of_Z 2) with (S754_finite false 4503599627370496 (-51)).
  unfold canon in *. simpl digits2_pos in *.
  rewrite Pos2Z.inj_succ in *.
  set (d := Zpos (digits2_pos p)) in *.
  set (m1 := Z.to_pos (Zpos p~0 * 2 ^ (53 - Z.succ d))) in *.
  assert (Hm1 : Zpos m1 = Zpos p * 2 ^ (53 - d)).
  { rewrite Hm. change (Zpos p~0) with (2 * Zpos p).
    replace (53 - d) with (Z.succ (53 - Z.succ d)) by lia.
    rewrite Z.pow_succ_r by lia. ring. }
  pose proof (digits2_pos_bounds p) as [Blo Bhi]. fold d in Blo, Bhi.
  assert (Hdm1 : Zpos (digits2_pos m1) = 53).
  { apply digits2_pos_unique. rewrite Hm1.
    assert (E52 : 2 ^ (53 - 1) = 2 ^ (d - 1) * 2 ^ (53 - d))
      by (rewrite <- Z.pow_add_r by lia; f_equal; lia).
    assert (E53 : 2 ^ 53 = 2 ^ d * 2 ^ (53 - d))
      by (rewrite <- Z.pow_add_r by lia; f_equal; lia).
    rewrite E52, E53.
    assert (0 < 2 ^ (53 - d)) by (apply Z.pow_pos_nonneg; lia).
    split; [ apply Z.mul_le_mono_nonneg_r | apply Z.mul_lt_mono_pos_r ]; lia. }
  unfold div, SFdiv, SFdiv_core_binary. cbn [Zdigits2]. rewrite Hdm1.
  change (Zpos (digits2_pos 4503599627370496)) with 53.
  replace (Z.min (fexp prec emax (53 + (Z.succ d - 53) - (53 + -51)))
             (Z.succ d - 53 - -51))
    with (d - 54) by (unfold fexp, SpecFloat.emin, prec, emax; lia).
  replace (Z.succ d - 53 - -51 - (d - 54)) with 53 by lia.
  rewrite Z.shiftl_mul_pow2 by lia.
  change (Zpos 4503599627370496) with (2 ^ 52).
  rewrite div_eucl_pow2. rewrite Bool.xorb_false_r.
  change (new_location (2 ^ 52) 0) with loc_Exact.
  change (2 * Zpos m1) with (Zpos m1~0).
  replace (d - 54) with (d - 53 - 1) by lia.
  apply (binary_round_aux_exact s (m1~0) p 1); fold d; lia.
Qed.

Lemma div_of_Z_2 (a : Z) :
  Z.abs (2 * a) < 2 ^ 53 -> (of_Z (2 * a) / of_Z 2)%f64 = of_Z a.
Proof.
  intros Ha. rewrite (of_Z_canon (2 * a) Ha), (of_Z_canon a) by lia.
  destruct a as [|p|p]; [ reflexivity | | ];
    apply div_canon_2; lia.
Qed.


Lemma digits2_pos_lt (p q : positive) :
  Zpos (digits2_pos p) < Zpos (digits2_pos q) -> Zpos p < Zpos q.
Proof.
  intros H. pose proof (digits2_pos_bounds p) as [_ Hp].
  pose proof (digits2_pos_bounds q) as [Hq _].
  assert (2 ^ Zpos (digits2_pos p) <= 2 ^ (Zpos (digits2_pos q) - 1))
    by (apply Z.pow_le_mono_r; lia).
  lia.
Qed.

(** Canonical floats are ordered as the integers they stand for. *)
Lemma SFcompare_canon (s1 s2 : bool) (p1 p2 : positive) :
  Zpos p1 < 2 ^ 53 -> Zpos p2 < 2 ^ 53 ->
  SFcompare (canon s1 p1) (canon s2 p2)
  = Some (cond_Zopp s1 (Zpos p1) ?= cond_Zopp s2 (Zpos p2)).
Proof.
  intros H1 H2.
  pose proof (digits2_pos_le_53 p1 H1). pose proof (digits2_pos_le_53 p2 H2).
  pose proof (digits2_pos_lt p1 p2) as L12.
  pose proof (digits2_pos_lt p2 p1) as L21.
  assert (Hm : Zpos (digits2_pos p1) = Zpos (digits2_pos p2) ->
               (Z.to_pos (Zpos p1 * 2 ^ (53 - Zpos (digits2_pos p1)))
                ?= Z.to_pos (Zpos p2 * 2 ^ (53 - Zpos (digits2_pos p2))))%positive
               = (Zpos p1 ?= Zpos p2)).
  { intros E.
    pose proof (canon_mantissa p1 H1) as M1.
    pose proof (canon_mantissa p2 H2) as M2.
    set (m1 := Z.to_pos (Zpos p1 * _)) in *.
    set (m2 := Z.to_pos (Zpos p2 * _)) in *.
    change (m1 ?= m2)%positive with (Zpos m1 ?= Zpos m2).
    rewrite M1, M2, E.
    symmetry. apply Zmult_compare_compat_r.
    apply Z.lt_gt, Z.pow_pos_nonneg; lia. }
  unfold canon, SFcompare.
  change (Pos.compare_cont Eq) with Pos.compare.
  destruct s1, s2; simpl cond_Zopp; try reflexivity; f_equal;
    destruct (Z.compare_spec (Zpos (digits2_pos p1) - 53)
                (Zpos (digits2_pos p2) - 53)) as [E|E|E].
  - rewrite Hm by lia. simpl. rewrite Pos.compare_antisym. reflexivity.
  - symmetry. apply Z.compare_gt_iff. specialize (L12 ltac:(lia)). lia.
  - symmetry. apply Z.compare_lt_iff. specialize (L21 ltac:(lia)). lia.
  - rewrite Hm by lia. reflexivity.
  - symmetry. apply Z.compare_lt_iff. apply L12. lia.
  - symmetry. apply Z.compare_gt_iff. specialize (L21 ltac:(lia)). lia.
Qed.

Lemma SFcompare_of_Z (a b : Z) :
  Z.abs a < 2 ^ 53 -> Z.abs b < 2 ^ 53 ->
  SFcompare (of_Z a) (of_Z b) = Some (a ?= b).
Proof.
  intros Ha Hb. rewrite (of_Z_canon a Ha), (of_Z_canon b Hb).
  destruct a as [|pa|pa]; destruct b as [|pb|pb]; try reflexivity;
    apply SFcompare_canon; lia.
Qed.

Lemma ltb_of_Z (a b : Z) :
  Z.abs a < 2 ^ 53 -> Z.abs b < 2 ^ 53 ->
  (of_Z a <? of_Z b)%f64 = (a <? b).
Proof.
  intros Ha Hb. unfold ltb, SFltb, Z.ltb.
  rewrite SFcompare_of_Z by assumption. reflexivity.
Qed.

Lemma Abs_of_Z_nonneg (d : Z) : 0 <= d -> Abs (of_Z d) = of_Z d.
Proof.
  intros Hd. apply Abs_of_sign_clear.
  destruct d as [|p|p]; [ reflexivity | | lia ].
  unfold of_Z, binary_normalize.
  rewrite <- has_sign_false. apply binary_round_sign.
Qed.

End ExactIntegers.

(** ** Rounding to nearest is monotone *)

Section Monotone.

Lemma shr_1_inv (m k : Z) (r : shr_record) :
  0 <= k -> shr_inv m k r -> shr_inv m (k + 1) (shr_1 r).
Proof.
  intros Hk [Hq H]. destruct r as [q rr ss]. cbn [shr_m shr_r shr_s] in *.
  assert (E1 : 2 ^ (k + 1) = 2 * 2 ^ k) by (rewrite Z.pow_add_r by lia; lia).
  assert (E2 : 0 < k -> 2 ^ k = 2 * 2 ^ (k - 1))
    by (intros; rewrite <- Z.pow_succ_r by lia; f_equal; lia).
  assert (P0 : 0 < 2 ^ k) by (apply Z.pow_pos_nonneg; lia).
  assert (P1 : 0 < k -> 0 < 2 ^ (k - 1))
    by (intros; apply Z.pow_pos_nonneg; lia).
  unfold shr_inv. replace (k + 1 - 1) with k by lia.
  destruct q as [|[p|p|]|p]; try lia;
    destruct rr, ss; cbn [shr_1 shr_m shr_r shr_s orb]; rewrite E1;
    try change (Zpos p~1) with (2 * Zpos p + 1) in *;
    try change (Zpos p~0) with (2 * Zpos p) in *;
    repeat match goal with
           | H : 0 < k /\ _ |- _ =>
               let Hk' := fresh "Hk" in destruct H as [Hk' H];
               specialize (E2 Hk'); specialize (P1 Hk')
           end;
    (split; [ lia | ]); try (split; [ lia | ]); try nia.
Qed.

Lemma iter_shr_1_inv (m : Z) (p : positive) : forall (k : Z) (r : shr_record),
  0 <= k -> shr_inv m k r -> shr_inv m (k + Zpos p) (iter_pos shr_1 p r).
Proof.
  induction p as [p IH|p IH|]; intros k r Hk Hr; cbn [iter_pos].
  - replace (k + Zpos p~1) with (k + 1 + Zpos p + Zpos p) by lia.
    apply IH; [ lia | ]. apply IH; [ lia | ]. apply shr_1_inv; assumption.
  - replace (k + Zpos p~0) with (k + Zpos p + Zpos p) by lia.
    apply IH; [ lia | ]. apply IH; assumption.
  - apply shr_1_inv; assumption.
Qed.

Lemma shr_record_inv (m e k : Z) :
  0 <= m -> 0 <= k ->
  shr_inv m k (fst (shr (Build_shr_record m false false) e k)).
Proof.
  intros Hm Hk.
  assert (H0 : shr_inv m 0 (Build_shr_record m false false))
    by (split; cbn; lia).
  unfold shr. destruct k as [|p|p]; cbn [fst]; try exact H0; [ | lia ].
  apply (iter_shr_1_inv m p 0); [ lia | exact H0 ].
Qed.

Lemma shr_fst_exponent (r : shr_record) (e e' k : Z) :
  fst (shr r e k) = fst (shr r e' k).
Proof. unfold shr. destruct k; reflexivity. Qed.

Lemma shr_snd (r : shr_record) (e k : Z) :
  0 <= k -> snd (shr r e k) = e + k.
Proof. unfold shr. destruct k; cbn [snd]; lia. Qed.

(** The rounded quotient is within half a unit of the exact one. *)
Lemma rne_bound (m k : Z) :
  0 <= m -> 0 <= k ->
  0 <= rne m k
  /\ 2 * rne m k * 2 ^ k - 2 ^ k <= 2 * m <= 2 * rne m k * 2 ^ k + 2 ^ k.
Proof.
  intros Hm Hk. unfold rne.
  pose proof (shr_record_inv m 0 k Hm Hk) as [Hq H].
  destruct (fst (shr _ 0 k)) as [q rr ss]. cbn [shr_m shr_r shr_s] in *.
  assert (P0 : 0 < 2 ^ k) by (apply Z.pow_pos_nonneg; lia).
  assert (E2 : 0 < k -> 2 ^ k = 2 * 2 ^ (k - 1))
    by (intros; rewrite <- Z.pow_succ_r by lia; f_equal; lia).
  destruct rr, ss; cbn [loc_of_shr_record round_nearest_even];
    try match type of H with
        | _ /\ _ => destruct H as [Hk' H]; specialize (E2 Hk')
        end;
    try destruct (Z.even q); split; nia.
Qed.

Lemma rne_mono (m1 m2 k : Z) :
  0 <= m1 -> m1 <= m2 -> 0 <= k -> rne m1 k <= rne m2 k.
Proof.
  intros H1 H12 Hk.
  destruct (Z.eq_dec m1 m2) as [->|Hne]; [ lia | ].
  pose proof (rne_bound m1 k H1 Hk) as [_ [L1 _]].
  pose proof (rne_bound m2 k ltac:(lia) Hk) as [_ [_ U2]].
  assert (P0 : 0 < 2 ^ k) by (apply Z.pow_pos_nonneg; lia).
  destruct (Z.le_gt_cases (rne m1 k) (rne m2 k)) as [?|Hgt]; [ assumption | ].
  exfalso. nia.
Qed.

Lemma rne_exact (q k : Z) : 0 <= k -> rne (q * 2 ^ k) k = q.
Proof.
  intros Hk. unfold rne, shr. destruct k as [|p|p]; [ | | lia ].
  - cbn. lia.
  - cbn [fst]. rewrite iter_shr_1_exact. reflexivity.
Qed.

Lemma fexp_fexp64 (e : Z) : fexp prec emax e = fexp64 e.
Proof. reflexivity. Qed.

Lemma binary_round_aux_unfold (s : bool) (M E : Z) :
  binary_round_aux prec emax s M E loc_Exact
  = let k := fexp64 (Zdigits2 M + E) - E in
    let q := rne M k in
    let e1 := snd (shr (Build_shr_record M false false) E k) in
    let k2 := fexp64 (Zdigits2 q + e1) - e1 in
    let r2 := shr (Build_shr_record q false false) e1 k2 in
    out s (shr_m (fst r2)) (snd r2).
Proof.
  unfold binary_round_aux, shr_fexp. rewrite !fexp_fexp64.
  cbn [shr_record_of_loc]. cbv zeta.
  set (k := fexp64 (Zdigits2 M + E) - E).
  unfold rne. rewrite (shr_fst_exponent _ 0 E k).
  destruct (shr (Build_shr_record M false false) E k) as [mrs1 e1].
  cbn [fst snd]. rewrite fexp_fexp64.
  destruct (shr _ e1 _) as [mrs2 e2]. cbn [fst snd].
  unfold out. destruct (shr_m mrs2); reflexivity.
Qed.

(** Rounding a mantissa that needs no shift. *)
Lemma binary_round_aux_no_shift (s : bool) (p : positive) (E : Z) :
  fexp64 (Zpos (digits2_pos p) + E) <= E ->
  binary_round_aux prec emax s (Zpos p) E loc_Exact = out s (Zpos p) E.
Proof.
  intros H. rewrite binary_round_aux_unfold. cbv zeta. cbn [Zdigits2].
  set (k := fexp64 (Zpos (digits2_pos p) + E) - E).
  assert (Hk : k <= 0) by (subst k; lia).
  assert (Hq : rne (Zpos p) k = Zpos p)
    by (unfold rne, shr; destruct k; try lia; reflexivity).
  assert (He : snd (shr (Build_shr_record (Zpos p) false false) E k) = E)
    by (unfold shr; destruct k; try lia; reflexivity).
  rewrite Hq, He. cbn [Zdigits2]. fold k.
  unfold shr. destruct k; try lia; reflexivity.
Qed.

Lemma Zdigits2_eq (q n : Z) :
  0 < q -> 2 ^ (n - 1) <= q < 2 ^ n -> Zdigits2 q = n.
Proof.
  intros Hq H. destruct q as [|p|p]; try lia.
  apply digits2_pos_unique. exact H.
Qed.

Lemma Zdigits2_le (q n : Z) :
  0 <= n -> 0 <= q < 2 ^ n -> 0 <= Zdigits2 q <= n.
Proof.
  intros Hn [H0 H]. destruct q as [|p|p]; cbn [Zdigits2]; try lia.
  pose proof (digits2_pos_bounds p) as [Blo _].
  split; [ lia | ].
  destruct (Z.le_gt_cases (Zpos (digits2_pos p)) n) as [?|Hgt];
    [ assumption | ].
  assert (2 ^ n <= 2 ^ (Zpos (digits2_pos p) - 1))
    by (apply Z.pow_le_mono_r; lia).
  lia.
Qed.

Lemma rne_upper (p : positive) (k : Z) :
  0 <= k ->
  rne (Zpos p) k <= 2 ^ (Z.max (Zpos (digits2_pos p)) k - k).
Proof.
  intros Hk. pose proof (digits2_pos_bounds p) as [_ Bhi].
  set (d := Zpos (digits2_pos p)) in *.
  rewrite <- (rne_exact (2 ^ (Z.max d k - k)) k Hk).
  apply rne_mono; try lia.
  rewrite <- Z.pow_add_r by lia.
  replace (Z.max d k - k + k) with (Z.max d k) by lia.
  assert (2 ^ d <= 2 ^ Z.max d k) by (apply Z.pow_le_mono_r; lia).
  lia.
Qed.

Lemma rne_lower (p : positive) (k : Z) :
  0 <= k -> k <= Zpos (digits2_pos p) - 1 ->
  2 ^ (Zpos (digits2_pos p) - 1 - k) <= rne (Zpos p) k.
Proof.
  intros Hk Hd. pose proof (digits2_pos_bounds p) as [Blo _].
  set (d := Zpos (digits2_pos p)) in *.
  rewrite <- (rne_exact (2 ^ (d - 1 - k)) k Hk) at 1.
  assert (E : 2 ^ (d - 1 - k) * 2 ^ k = 2 ^ (d - 1))
    by (rewrite <- Z.pow_add_r by lia; f_equal; lia).
  assert (0 < 2 ^ (d - 1)) by (apply Z.pow_pos_nonneg; lia).
  apply rne_mono; lia.
Qed.

(** Rounding a mantissa that has digits to lose. *)
Lemma binary_round_aux_shift (s : bool) (p : positive) (E : Z) :
  let d := Zpos (digits2_pos p) in
  let fe := fexp64 (d + E) in
  E < fe ->
  binary_round_aux prec emax s (Zpos p) E loc_Exact
  = (let q := rne (Zpos p) (fe - E) in
     if q =? 2 ^ 53 then out s (2 ^ 52) (fe + 1) else out s q fe)
  /\ 0 <= rne (Zpos p) (fe - E) <= 2 ^ 53
  /\ (-1074 <= d + E - 53 -> 2 ^ 52 <= rne (Zpos p) (fe - E))
  /\ (d + E - 53 < -1074 -> rne (Zpos p) (fe - E) <= 2 ^ 52).
Proof.
  intros d fe HE.
  set (k := fe - E). assert (Hk : 0 < k) by (unfold k; lia).
  assert (Hfe : -1074 <= fe) by (unfold fe, fexp64; lia).
  assert (Ek : -1074 <= d + E - 53 -> k = d - 53)
    by (unfold k, fe, fexp64 in *; lia).
  assert (Es : d + E - 53 < -1074 -> fe = -1074 /\ Z.max d k - k <= 52)
    by (unfold k, fe, fexp64 in *; lia).
  pose proof (rne_bound (Zpos p) k ltac:(lia) ltac:(lia)) as [Hq0 _].
  pose proof (rne_upper p k ltac:(lia)) as Hup. fold d in Hup.
  assert (Hnormal : -1074 <= d + E - 53 ->
                    2 ^ 52 <= rne (Zpos p) k <= 2 ^ 53).
  { intros Hn. specialize (Ek Hn). split.
    - pose proof (rne_lower p k ltac:(lia)) as Hlo. fold d in Hlo.
      replace (d - 1 - k) with 52 in Hlo by lia. apply Hlo. lia.
    - replace (Z.max d k - k) with 53 in Hup by lia. exact Hup. }
  assert (Hsub : d + E - 53 < -1074 -> rne (Zpos p) k <= 2 ^ 52).
  { intros Hs. destruct (Es Hs) as [_ Hm].
    assert (2 ^ (Z.max d k - k) <= 2 ^ 52)
      by (apply Z.pow_le_mono_r; lia).
    lia. }
  assert (Hle : 0 <= rne (Zpos p) k <= 2 ^ 53).
  { split; [ exact Hq0 | ].
    destruct (Z.lt_ge_cases (d + E - 53) (-1074)) as [Hs|Hn].
    - specialize (Hsub Hs). change (2 ^ 52) with 4503599627370496 in Hsub.
      change (2 ^ 53) with 9007199254740992. lia.
    - apply Hnormal. lia. }
  split; [ | split; [ exact Hle | split;
                      [ intros Hn; apply Hnormal, Hn | exact Hsub ] ] ].
  rewrite binary_round_aux_unfold. cbv zeta. cbn [Zdigits2].
  fold d. fold fe. fold k.
  rewrite shr_snd by lia. replace (E + k) with fe by (unfold k; lia).
  set (q := rne (Zpos p) k) in *.
  destruct (Z.eqb_spec q (2 ^ 53)) as [Eq|Nq].
  - rewrite Eq.
    change (Zdigits2 (2 ^ 53)) with 54.
    replace (fexp64 (54 + fe) - fe) with 1 by (unfold fexp64; lia).
    reflexivity.
  - assert (Hd : fexp64 (Zdigits2 q + fe) - fe = 0).
    { destruct (Z.lt_ge_cases (d + E - 53) (-1074)) as [Hs|Hn].
      - specialize (Hsub Hs). destruct (Es Hs) as [Efe _].
        assert (Hq : 0 <= q < 2 ^ 53)
          by (change (2 ^ 52) with 4503599627370496 in Hsub;
              change (2 ^ 53) with 9007199254740992; lia).
        pose proof (Zdigits2_le q 53 ltac:(lia) Hq). unfold fexp64. lia.
      - destruct (Hnormal ltac:(lia)) as [Hlo _].
        assert (Zdigits2 q = 53).
        { apply Zdigits2_eq; [ | change (53 - 1) with 52; lia ].
          change (2 ^ 52) with 4503599627370496 in Hlo. lia. }
        unfold fexp64. lia. }
    rewrite Hd. reflexivity.
Qed.

Lemma digits2_pos_shift (p P : positive) (j : Z) :
  0 <= j -> Zpos P = Zpos p * 2 ^ j ->
  Zpos (digits2_pos P) = Zpos (digits2_pos p) + j.
Proof.
  intros Hj HP. pose proof (digits2_pos_bounds p) as [Blo Bhi].
  apply digits2_pos_unique. rewrite HP.
  replace (Zpos (digits2_pos p) + j - 1)
    with ((Zpos (digits2_pos p) - 1) + j) by lia.
  rewrite !Z.pow_add_r by lia.
  assert (0 < 2 ^ j) by (apply Z.pow_pos_nonneg; lia).
  split; [ apply Z.mul_le_mono_nonneg_r | apply Z.mul_lt_mono_pos_r ]; lia.
Qed.

Lemma binary_round_pair (s : bool) (p : positive) (e : Z) :
  binary_round prec emax s p e
  = out s (snd (round_pair p e)) (fst (round_pair p e)).
Proof.
  unfold binary_round, round_pair. rewrite fexp_fexp64.
  set (d := Zpos (digits2_pos p)).
  set (fe := fexp64 (d + e)).
  destruct (Z.leb_spec fe e) as [Hle|Hgt]; cbn [fst snd].
  - assert (HP : exists P, shl_align p e fe = (P, fe)
                           /\ Zpos P = Zpos p * 2 ^ (e - fe)).
    { unfold shl_align. destruct (fe - e) as [|j|j] eqn:Ej; try lia.
      - exists p. replace e with fe by lia.
        rewrite Z.sub_diag, Z.pow_0_r. split; [ reflexivity | lia ].
      - exists (Pos.iter xO p j). split; [ reflexivity | ].
        rewrite iter_xO_value. do 2 f_equal. lia. }
    destruct HP as [P [-> HP]].
    pose proof (digits2_pos_shift p P (e - fe) ltac:(lia) HP) as HdP.
    rewrite binary_round_aux_no_shift, HP; [ reflexivity | ].
    rewrite HdP. fold d. replace (d + (e - fe) + fe) with (d + e) by lia.
    fold fe. lia.
  - assert (Hs : shl_align p e fe = (p, e))
      by (unfold shl_align; destruct (fe - e) eqn:Ej; try lia; reflexivity).
    rewrite Hs.
    destruct (binary_round_aux_shift s p e Hgt) as [-> _]. fold d. fold fe.
    cbv zeta. destruct (rne (Zpos p) (fe - e) =? 2 ^ 53); reflexivity.
Qed.

Lemma round_pair_facts (p : positive) (e : Z) :
  let d := Zpos (digits2_pos p) in
  let fe := fexp64 (d + e) in
  let E := fst (round_pair p e) in
  let m := snd (round_pair p e) in
  0 <= m /\ -1074 <= fe /\ fe <= E <= fe + 1
  /\ (E = fe + 1 -> m = 2 ^ 52)
  /\ (-1074 <= d + e - 53 -> 2 ^ 52 <= m)
  /\ (m = 0 -> E = -1074).
Proof.
  intros d fe E m. subst E m. unfold round_pair. fold d. fold fe.
  assert (Hfe : -1074 <= fe) by (unfold fe, fexp64; lia).
  pose proof (digits2_pos_bounds p) as [Blo Bhi]. fold d in Blo, Bhi.
  destruct (Z.leb_spec fe e) as [Hle|Hgt]; cbn [fst snd].
  - assert (P0 : 0 < 2 ^ (e - fe)) by (apply Z.pow_pos_nonneg; lia).
    repeat split; try lia.
    intros Hn.
    assert (Ee : e - fe = 53 - d) by (unfold fe, fexp64 in *; lia).
    rewrite Ee. replace 52 with ((d - 1) + (53 - d)) at 1 by lia.
    assert (Hd : 1 <= d) by (unfold d; lia).
    rewrite Z.pow_add_r by lia.
    apply Z.mul_le_mono_nonneg_r; [ rewrite <- Ee; lia | exact Blo ].
  - destruct (binary_round_aux_shift false p e Hgt) as [_ [Hq [Hn Hs]]].
    fold d in Hq, Hn, Hs. fold fe in Hq, Hn, Hs.
    assert (Efe : d + e - 53 < -1074 -> fe = -1074)
      by (unfold fe, fexp64; lia).
    change (2 ^ 52) with 4503599627370496 in *.
    change (2 ^ 53) with 9007199254740992 in *.
    destruct (Z.eqb_spec (rne (Zpos p) (fe - e)) 9007199254740992)
      as [Eq|Nq]; cbn [fst snd]; repeat split; lia.
Qed.

Lemma digits2_pos_mono (p1 p2 : positive) :
  Zpos p1 <= Zpos p2 -> Zpos (digits2_pos p1) <= Zpos (digits2_pos p2).
Proof.
  intros H.
  destruct (Z.le_gt_cases (Zpos (digits2_pos p1)) (Zpos (digits2_pos p2)))
    as [?|Hgt]; [ assumption | ].
  pose proof (digits2_pos_lt p2 p1 ltac:(lia)). lia.
Qed.

Lemma round_pair_mono (p1 p2 : positive) (e : Z) :
  Zpos p1 <= Zpos p2 -> lexle (round_pair p1 e) (round_pair p2 e).
Proof.
  intros H12.
  pose proof (digits2_pos_mono p1 p2 H12) as Hd.
  pose proof (round_pair_facts p1 e) as F1.
  pose proof (round_pair_facts p2 e) as F2.
  cbv zeta in F1, F2.
  set (d1 := Zpos (digits2_pos p1)) in *.
  set (d2 := Zpos (digits2_pos p2)) in *.
  assert (Hfe : fexp64 (d1 + e) <= fexp64 (d2 + e))
    by (unfold fexp64; lia).
  destruct (Z.eq_dec (fexp64 (d1 + e)) (fexp64 (d2 + e))) as [Efe|Nfe].
  - clear F1 F2. unfold lexle, round_pair. fold d1. fold d2. rewrite <- Efe.
    set (fe := fexp64 (d1 + e)) in *.
    destruct (Z.leb_spec fe e) as [Hle|Hgt]; cbn [fst snd].
    + right. split; [ reflexivity | ].
      apply Z.mul_le_mono_nonneg_r; [ apply Z.pow_nonneg; lia | exact H12 ].
    + pose proof (rne_mono (Zpos p1) (Zpos p2) (fe - e)
                    ltac:(lia) H12 ltac:(lia)) as Hq.
      assert (Hgt2 : e < fexp64 (d2 + e)) by lia.
      destruct (binary_round_aux_shift false p2 e Hgt2) as [_ [Hq2 _]].
      fold d2 in Hq2. rewrite <- Efe in Hq2. fold fe in Hq2.
      change (2 ^ 52) with 4503599627370496 in *.
      change (2 ^ 53) with 9007199254740992 in *.
      destruct (Z.eqb_spec (rne (Zpos p1) (fe - e)) 9007199254740992);
        destruct (Z.eqb_spec (rne (Zpos p2) (fe - e)) 9007199254740992);
        cbn [fst snd]; lia.
  - destruct F1 as [_ [_ [HE1 [Hc1 _]]]].
    destruct F2 as [_ [_ [HE2 [_ [Hn2 _]]]]].
    assert (Hnorm : -1074 <= d2 + e - 53) by (unfold fexp64 in *; lia).
    specialize (Hn2 Hnorm).
    unfold lexle.
    destruct (Z.lt_ge_cases (fst (round_pair p1 e)) (fst (round_pair p2 e)))
      as [?|Hge]; [ left; assumption | right ].
    split; [ lia | ]. rewrite Hc1 by lia. exact Hn2.
Qed.

Lemma out_lexle (E1 m1 E2 m2 : Z) :
  lexle (E1, m1) (E2, m2) -> 0 <= m1 -> 0 <= m2 ->
  (m2 = 0 -> E2 = -1074) -> -1074 <= E1 ->
  (out false m2 E2 <? out false m1 E1)%f64 = false
  /\ (out true m1 E1 <? out true m2 E2)%f64 = false.
Proof.
  unfold lexle; cbn [fst snd]. intros HL H1 H2 Hz HE1.
  destruct m2 as [|q2|q2]; try lia.
  - assert (m1 = 0) by lia. subst m1. split; reflexivity.
  - destruct m1 as [|q1|q1]; try lia.
    + cbn [out]. destruct (E2 <=? 971); split; reflexivity.
    + cbn [out].
      destruct (Z.leb_spec E1 971); destruct (Z.leb_spec E2 971);
        try (split; reflexivity); try lia.
      unfold ltb, SFltb, SFcompare.
      change (Pos.compare_cont Eq) with Pos.compare.
      destruct HL as [HL|[HL Hm]].
      * rewrite (proj2 (Z.compare_gt_iff E2 E1)) by lia.
        rewrite (proj2 (Z.compare_lt_iff E1 E2)) by lia.
        split; reflexivity.
      * subst E2. rewrite Z.compare_refl.
        assert (Hc : (q1 ?= q2)%positive <> Gt)
          by (change ((Zpos q1 ?= Zpos q2) <> Gt); apply Z.compare_le_iff; lia).
        rewrite (Pos.compare_antisym q1 q2).
        destruct (q1 ?= q2)%positive; try congruence; split; reflexivity.
Qed.

(** Rounding is monotone. *)
Lemma binary_round_mono (p1 p2 : positive) (e : Z) :
  Zpos p1 <= Zpos p2 ->
  (binary_round prec emax false p2 e <? binary_round prec emax false p1 e)%f64
  = false
  /\ (binary_round prec emax true p1 e <? binary_round prec emax true p2 e)%f64
     = false.
Proof.
  intros H. rewrite !binary_round_pair.
  pose proof (round_pair_mono p1 p2 e H) as HL.
  pose proof (round_pair_facts p1 e) as F1.
  pose proof (round_pair_facts p2 e) as F2.
  cbv zeta in F1, F2.
  destruct (round_pair p1 e) as [E1 m1]. destruct (round_pair p2 e) as [E2 m2].
  cbn [fst snd] in *.
  apply out_lexle; try assumption; lia.
Qed.

Lemma ltb_signs (x y : float64) :
  has_sign false x = true -> has_sign true y = true ->
  (x <? y)%f64 = false.
Proof.
  destruct x as [[]|[]| |[] mx ex]; destruct y as [[]|[]| |[] my ey];
    simpl; try discriminate; reflexivity.
Qed.

Lemma ltb_unsigned_zero (x : float64) :
  has_sign false x = true -> (x <? S754_zero false)%f64 = false.
Proof. destruct x as [[]|[]| |[] mx ex]; simpl; try discriminate; reflexivity. Qed.

Lemma binary_normalize_mono (M1 M2 e : Z) :
  M1 <= M2 ->
  (binary_normalize prec emax M2 e false
   <? binary_normalize prec emax M1 e false)%f64 = false.
Proof.
  intros H. unfold binary_normalize.
  destruct M1 as [|p1|p1]; destruct M2 as [|p2|p2]; try lia;
    try reflexivity;
    try (apply ltb_signs; (apply binary_round_sign || reflexivity)).
  - apply ltb_unsigned_zero, binary_round_sign.
  - apply (binary_round_mono p1 p2 e). lia.
  - apply (binary_round_mono p2 p1 e). lia.
Qed.

(** The lower end of an interval is never above its upper end. *)
Lemma Max_not_below_Min (x d : float64) :
  sign_clear d = true -> (x + d <? x - d)%f64 = false.
Proof.
  intros Hd.
  destruct d as [[]|[]| |[] md ed]; try discriminate Hd;
    destruct x as [[]|[]| |sx mx ex]; try reflexivity.
  - destruct sx; unfold ltb, SFltb; cbn [add sub SFadd SFsub];
      unfold ltb, SFltb; rewrite (SFcompare_refl (S754_finite _ mx ex));
      reflexivity.
  - unfold add, sub, SFadd, SFsub. apply binary_normalize_mono.
    cbn [cond_Zopp]. lia.
Qed.

End Monotone.

(** ** Operations whose exact result is a float *)

Section ExactOperations.

Lemma bounded_facts (m : positive) (e : Z) :
  bounded prec emax m e = true ->
  fexp64 (Zpos (digits2_pos m) + e) = e /\ e <= 971 /\ -1074 <= e
  /\ Zpos (digits2_pos m) <= 53
  /\ (Zpos (digits2_pos m) < 53 -> e = -1074).
Proof.
  unfold bounded, canonical_mantissa. rewrite fexp_fexp64.
  intros H. apply Bool.andb_true_iff in H. destruct H as [H1 H2].
  apply Z.eqb_eq in H1. apply Z.leb_le in H2.
  change (emax - prec) with 971 in H2.
  unfold fexp64 in *. lia.
Qed.

Lemma pow2_pos (k : Z) : 0 <= k -> 0 < 2 ^ k.
Proof. intros. apply Z.pow_pos_nonneg; lia. Qed.

(** A value that a float holds is rounded to that float. *)
Lemma binary_round_canonical (s : bool) (P m : positive) (E e : Z) :
  bounded prec emax m e = true -> -1074 <= E ->
  Zpos P * 2 ^ (E + 1074) = Zpos m * 2 ^ (e + 1074) ->
  binary_round prec emax s P E = S754_finite s m e.
Proof.
  intros Hb HE HV.
  destruct (bounded_facts m e Hb) as [Hfe [He1 [He2 [Hd _]]]].
  assert (HdP : Zpos (digits2_pos P) + E = Zpos (digits2_pos m) + e).
  { pose proof (pow2_pos (E + 1074) ltac:(lia)) as P1.
    assert (HN : 0 < Zpos P * 2 ^ (E + 1074)) by (apply Z.mul_pos_pos; lia).
    pose proof (digits2_pos_shift P (Z.to_pos (Zpos P * 2 ^ (E + 1074)))
                  (E + 1074) ltac:(lia)) as D1.
    pose proof (digits2_pos_shift m (Z.to_pos (Zpos P * 2 ^ (E + 1074)))
                  (e + 1074) ltac:(lia)) as D2.
    rewrite Z2Pos.id in D1, D2 by lia.
    specialize (D1 eq_refl). specialize (D2 HV). lia. }
  rewrite binary_round_pair. unfold round_pair. rewrite HdP, Hfe.
  pose proof (digits2_pos_bounds m) as [_ Bm].
  assert (Hm53 : Zpos m < 2 ^ 53).
  { assert (2 ^ Zpos (digits2_pos m) <= 2 ^ 53)
      by (apply Z.pow_le_mono_r; lia). lia. }
  destruct (Z.leb_spec e E) as [Hle|Hgt]; cbn [fst snd].
  - assert (Em : Zpos P * 2 ^ (E - e) = Zpos m).
    { replace (E + 1074) with ((E - e) + (e + 1074)) in HV by lia.
      rewrite (Z.pow_add_r 2 (E - e) (e + 1074)), Z.mul_assoc in HV by lia.
      apply Z.mul_cancel_r in HV; [ exact HV | ].
      pose proof (pow2_pos (e + 1074) ltac:(lia)). lia. }
    rewrite Em. cbn [out].
    destruct (Z.leb_spec e 971); [ reflexivity | lia ].
  - assert (EP : Zpos P = Zpos m * 2 ^ (e - E)).
    { replace (e + 1074) with ((e - E) + (E + 1074)) in HV by lia.
      rewrite (Z.pow_add_r 2 (e - E) (E + 1074)), Z.mul_assoc in HV by lia.
      apply Z.mul_cancel_r in HV; [ exact HV | ].
      pose proof (pow2_pos (E + 1074) ltac:(lia)). lia. }
    rewrite EP, rne_exact by lia.
    destruct (Z.eqb_spec (Zpos m) (2 ^ 53)) as [Eq|_]; [ lia | ].
    cbn [fst snd out]. destruct (Z.leb_spec e 971); [ reflexivity | lia ].
Qed.

Lemma binary_normalize_canonical (M E : Z) (s : bool) (m : positive) (e : Z) :
  bounded prec emax m e = true -> -1074 <= E ->
  M * 2 ^ (E + 1074) = units (S754_finite s m e) ->
  binary_normalize prec emax M E false = S754_finite s m e.
Proof.
  intros Hb HE HV. cbn [units] in HV.
  destruct (bounded_facts m e Hb) as [_ [_ [He2 _]]].
  pose proof (pow2_pos (E + 1074) ltac:(lia)) as P1.
  pose proof (pow2_pos (e + 1074) ltac:(lia)) as P2.
  unfold binary_normalize.
  destruct M as [|P|P]; destruct s; cbn [cond_Zopp] in HV; try nia.
  - apply binary_round_canonical; try assumption.
  - apply binary_round_canonical; try assumption.
    change (Zneg P) with (- Zpos P) in HV. lia.
Qed.

Lemma binary_round_aux_canonical (s : bool) (Q m : positive) (E e : Z) :
  bounded prec emax m e = true -> -1074 <= E -> E <= e ->
  Zpos Q * 2 ^ (E + 1074) = Zpos m * 2 ^ (e + 1074) ->
  binary_round_aux prec emax s (Zpos Q) E loc_Exact = S754_finite s m e.
Proof.
  intros Hb HE HEe HV.
  destruct (bounded_facts m e Hb) as [Hfe [He1 [He2 [Hd _]]]].
  assert (HdQ : Zpos (digits2_pos Q) + E = Zpos (digits2_pos m) + e).
  { pose proof (pow2_pos (E + 1074) ltac:(lia)) as P1.
    assert (HN : 0 < Zpos Q * 2 ^ (E + 1074)) by (apply Z.mul_pos_pos; lia).
    pose proof (digits2_pos_shift Q (Z.to_pos (Zpos Q * 2 ^ (E + 1074)))
                  (E + 1074) ltac:(lia)) as D1.
    pose proof (digits2_pos_shift m (Z.to_pos (Zpos Q * 2 ^ (E + 1074)))
                  (e + 1074) ltac:(lia)) as D2.
    rewrite Z2Pos.id in D1, D2 by lia.
    specialize (D1 eq_refl). specialize (D2 HV). lia. }
  pose proof (digits2_pos_bounds m) as [_ Bm].
  assert (Hm53 : Zpos m < 2 ^ 53).
  { assert (2 ^ Zpos (digits2_pos m) <= 2 ^ 53)
      by (apply Z.pow_le_mono_r; lia). lia. }
  assert (EQ : Zpos Q = Zpos m * 2 ^ (e - E)).
  { replace (e + 1074) with ((e - E) + (E + 1074)) in HV by lia.
    rewrite (Z.pow_add_r 2 (e - E) (E + 1074)), Z.mul_assoc in HV by lia.
    apply Z.mul_cancel_r in HV; [ exact HV | ].
    pose proof (pow2_pos (E + 1074) ltac:(lia)). lia. }
  destruct (Z.eq_dec E e) as [->|Hne].
  - rewrite Z.sub_diag, Z.pow_0_r, Z.mul_1_r in EQ. injection EQ as ->.
    rewrite binary_round_aux_no_shift by lia. cbn [out].
    destruct (Z.leb_spec e 971); [ reflexivity | lia ].
  - pose proof (binary_round_aux_shift s Q E) as H. cbv zeta in H.
    rewrite HdQ, Hfe in H. destruct (H ltac:(lia)) as [-> _].
    rewrite EQ, rne_exact by lia.
    destruct (Z.eqb_spec (Zpos m) (2 ^ 53)) as [Eq|_]; [ lia | ].
    cbn [out]. destruct (Z.leb_spec e 971); [ reflexivity | lia ].
Qed.

Lemma units_finite_nonzero (s : bool) (m : positive) (e : Z) :
  -1074 <= e -> units (S754_finite s m e) <> 0.
Proof.
  intros He. cbn [units]. pose proof (pow2_pos (e + 1074) ltac:(lia)).
  destruct s; cbn [cond_Zopp]; nia.
Qed.

Lemma valid_finite (s : bool) (m : positive) (e : Z) :
  valid (S754_finite s m e) = bounded prec emax m e.
Proof. reflexivity. Qed.

(** Two floats of the same value are the same float, zeros apart. *)
Lemma canonical_unique (x y : float64) :
  valid x = true -> valid y = true ->
  is_finite x = true -> is_finite y = true ->
  is_zero x = false -> units x = units y -> x = y.
Proof.
  intros Vx Vy Fx Fy Zx U.
  destruct x as [| | |sx mx ex]; try discriminate.
  rewrite valid_finite in Vx.
  destruct (bounded_facts _ _ Vx) as [_ [_ [Hex _]]].
  pose proof (units_finite_nonzero sx mx ex Hex) as Nx.
  destruct y as [| | |sy my ey]; try discriminate;
    [ exfalso; apply Nx; exact U | ].
  rewrite valid_finite in Vy.
  destruct (bounded_facts _ _ Vy) as [_ [_ [Hey _]]].
  cbn [units] in U.
  pose proof (pow2_pos (ex + 1074) ltac:(lia)) as Px.
  pose proof (pow2_pos (ey + 1074) ltac:(lia)) as Py.
  assert (Hs : sx = sy /\ Zpos mx * 2 ^ (ex + 1074) = Zpos my * 2 ^ (ey + 1074)).
  { destruct sx, sy; cbn [cond_Zopp] in U; split;
      try reflexivity; try nia. }
  destruct Hs as [<- HV].
  pose proof (binary_round_canonical sx mx mx ex ex Vx Hex eq_refl) as R1.
  pose proof (binary_round_canonical sx mx my ex ey Vy Hex HV) as R2.
  congruence.
Qed.

Lemma aligned_units (s : bool) (m : positive) (e ez : Z) :
  ez <= e -> -1074 <= ez ->
  cond_Zopp s (Zpos (fst (shl_align m e ez))) * 2 ^ (ez + 1074)
  = units (S754_finite s m e).
Proof.
  intros H1 H2. rewrite shl_align_value by assumption. cbn [units].
  rewrite cond_Zopp_mul, <- Z.mul_assoc, <- Z.pow_add_r by lia.
  do 2 f_equal. lia.
Qed.

Lemma representable_nonzero (z : Z) :
  representable z -> z <> 0 ->
  exists (s : bool) (m : positive) (e : Z),
    bounded prec emax m e = true /\ units (S754_finite s m e) = z.
Proof.
  intros [x [Vx [Fx U]]] Hz.
  destruct x as [| | |s m e]; try discriminate; cbn [units] in U; try lia.
  exists s, m, e. split; [ exact Vx | exact U ].
Qed.

(** An addition whose exact result is a float returns that result. *)
Lemma add_exact (x y : float64) :
  valid x = true -> valid y = true ->
  is_finite x = true -> is_finite y = true ->
  representable (units x + units y) ->
  valid (x + y)%f64 = true /\ is_finite (x + y)%f64 = true
  /\ units (x + y)%f64 = units x + units y.
Proof.
  intros Vx Vy Fx Fy R.
  destruct x as [sx| | |sx mx ex]; try discriminate;
    destruct y as [sy| | |sy my ey]; try discriminate.
  - clear. destruct sx, sy; repeat split.
  - repeat split; assumption.
  - cbn [units]. rewrite Z.add_0_r. repeat split; assumption.
  - pose proof Vx as Bx. pose proof Vy as By.
    rewrite valid_finite in Bx, By.
    destruct (bounded_facts _ _ Bx) as [_ [_ [Hex _]]].
    destruct (bounded_facts _ _ By) as [_ [_ [Hey _]]].
    unfold add, SFadd. set (ez := Z.min ex ey).
    assert (HS : (cond_Zopp sx (Zpos (fst (shl_align mx ex ez)))
                  + cond_Zopp sy (Zpos (fst (shl_align my ey ez))))
                 * 2 ^ (ez + 1074)
                 = units (S754_finite sx mx ex) + units (S754_finite sy my ey)).
    { rewrite Z.mul_add_distr_r, !aligned_units by (subst ez; lia).
      reflexivity. }
    destruct (Z.eq_dec (units (S754_finite sx mx ex)
                        + units (S754_finite sy my ey)) 0) as [E0|N0].
    + rewrite E0 in *.
      pose proof (pow2_pos (ez + 1074) ltac:(subst ez; lia)) as Pz.
      apply Z.mul_eq_0 in HS. destruct HS as [-> |HS]; [ | lia ].
      repeat split.
    + destruct (representable_nonzero _ R N0) as [s [m [e [Bz Uz]]]].
      rewrite <- Uz in HS.
      rewrite (binary_normalize_canonical _ ez s m e Bz
                 ltac:(subst ez; lia) HS).
      repeat split; assumption.
Qed.

(** A subtraction whose exact result is a float returns that result. *)
Lemma sub_exact (x y : float64) :
  valid x = true -> valid y = true ->
  is_finite x = true -> is_finite y = true ->
  representable (units x - units y) ->
  valid (x - y)%f64 = true /\ is_finite (x - y)%f64 = true
  /\ units (x - y)%f64 = units x - units y.
Proof.
  intros Vx Vy Fx Fy R.
  destruct x as [sx| | |sx mx ex]; try discriminate;
    destruct y as [sy| | |sy my ey]; try discriminate.
  - clear. destruct sx, sy; repeat split.
  - unfold sub, SFsub. repeat split; [ exact Vy | ].
    cbn [units]. destruct sy; cbn [negb cond_Zopp]; lia.
  - cbn [units]. rewrite Z.sub_0_r. repeat split; assumption.
  - pose proof Vx as Bx. pose proof Vy as By.
    rewrite valid_finite in Bx, By.
    destruct (bounded_facts _ _ Bx) as [_ [_ [Hex _]]].
    destruct (bounded_facts _ _ By) as [_ [_ [Hey _]]].
    unfold sub, SFsub. set (ez := Z.min ex ey).
    assert (HS : (cond_Zopp sx (Zpos (fst (shl_align mx ex ez)))
                  - cond_Zopp sy (Zpos (fst (shl_align my ey ez))))
                 * 2 ^ (ez + 1074)
                 = units (S754_finite sx mx ex) - units (S754_finite sy my ey)).
    { rewrite Z.mul_sub_distr_r, !aligned_units by (subst ez; lia).
      reflexivity. }
    destruct (Z.eq_dec (units (S754_finite sx mx ex)
                        - units (S754_finite sy my ey)) 0) as [E0|N0].
    + rewrite E0 in *.
      pose proof (pow2_pos (ez + 1074) ltac:(subst ez; lia)) as Pz.
      apply Z.mul_eq_0 in HS. destruct HS as [-> |HS]; [ | lia ].
      repeat split.
    + destruct (representable_nonzero _ R N0) as [s [m [e [Bz Uz]]]].
      rewrite <- Uz in HS.
      rewrite (binary_normalize_canonical _ ez s m e Bz
                 ltac:(subst ez; lia) HS).
      repeat split; assumption.
Qed.

Lemma div_eucl_exact (q d : Z) : 0 < d -> Z.div_eucl (q * d) d = (q, 0).
Proof.
  intros Hd. rewrite (surjective_pairing (Z.div_eucl (q * d) d)).
  change (fst (Z.div_eucl (q * d) d)) with (q * d / d).
  change (snd (Z.div_eucl (q * d) d)) with ((q * d) mod d).
  rewrite Z.div_mul, Z.mod_mul by lia. reflexivity.
Qed.

(** Halving the double of a float gives the float back. *)
Lemma div_2_exact (z v : float64) :
  valid z = true -> valid v = true ->
  is_finite z = true -> is_finite v = true ->
  is_zero v = false -> units z = 2 * units v ->
  (z / of_Z 2)%f64 = v.
Proof.
  intros Vz Vv Fz Fv Zv U.
  destruct v as [| | |s m e]; try discriminate.
  rewrite valid_finite in Vv.
  destruct (bounded_facts _ _ Vv) as [Hfe [_ [He _]]].
  pose proof (units_finite_nonzero s m e He) as Nv.
  destruct z as [sz| | |sz mz ez]; try discriminate;
    [ cbn [units] in U; cbn [units] in Nv; lia | ].
  rewrite valid_finite in Vz.
  destruct (bounded_facts _ _ Vz) as [Hfz [_ [Hez _]]].
  cbn [units] in U.
  pose proof (pow2_pos (e + 1074) ltac:(lia)) as Pe.
  pose proof (pow2_pos (ez + 1074) ltac:(lia)) as Pz.
  assert (Hs : sz = s
               /\ Zpos mz * 2 ^ (ez + 1074) = Zpos m * 2 ^ (e + 1075)).
  { replace (e + 1075) with (Z.succ (e + 1074)) by lia.
    rewrite Z.pow_succ_r by lia.
    destruct sz, s; cbn [cond_Zopp] in U; split;
      try reflexivity; try nia. }
  destruct Hs as [-> HV]. clear U Nv.
  assert (Hd : Zpos (digits2_pos mz) + ez = Zpos (digits2_pos m) + e + 1).
  { assert (HN : 0 < Zpos mz * 2 ^ (ez + 1074)) by (apply Z.mul_pos_pos; lia).
    pose proof (digits2_pos_shift mz (Z.to_pos (Zpos mz * 2 ^ (ez + 1074)))
                  (ez + 1074) ltac:(lia)) as D1.
    pose proof (digits2_pos_shift m (Z.to_pos (Zpos mz * 2 ^ (ez + 1074)))
                  (e + 1075) ltac:(lia)) as D2.
    rewrite Z2Pos.id in D1, D2 by lia.
    specialize (D1 eq_refl). specialize (D2 HV). lia. }
  change (of_Z 2) with (S754_finite false 4503599627370496 (-51)).
  unfold div, SFdiv, SFdiv_core_binary. cbn [Zdigits2].
  change (Zpos (digits2_pos 4503599627370496)) with 53.
  rewrite fexp_fexp64, Bool.xorb_false_r.
  set (e' := Z.min (fexp64 (Zpos (digits2_pos mz) + ez - (53 + -51)))
               (ez - -51)).
  set (sh := ez - -51 - e').
  assert (He'1 : -1074 <= e') by (subst e'; unfold fexp64; lia).
  assert (He'2 : e' <= e).
  { rewrite <- Hfe. subst e'. unfold fexp64. lia. }
  assert (Hsh : 0 <= sh) by (subst sh e'; lia).
  clear Hfe Hfz.
  pose proof (pow2_pos (e' + 1074) ltac:(lia)) as PA.
  pose proof (pow2_pos (e - e') ltac:(lia)) as PB.
  assert (E1 : 2 ^ (e + 1075) = 2 * (2 ^ (e - e') * 2 ^ (e' + 1074))).
  { rewrite <- Z.pow_add_r, <- Z.pow_succ_r by lia. f_equal. lia. }
  assert (E2 : 2 ^ (ez + 1074) * 2 ^ 51 = 2 ^ sh * 2 ^ (e' + 1074)).
  { rewrite <- !Z.pow_add_r by lia. f_equal. subst sh. lia. }
  assert (Hm' : Zpos mz * 2 ^ sh = Zpos m * 2 ^ (e - e') * 2 ^ 52).
  { apply Z.mul_cancel_r with (p := 2 ^ (e' + 1074)); [ lia | ].
    transitivity (Zpos mz * 2 ^ (ez + 1074) * 2 ^ 51).
    - rewrite <- !Z.mul_assoc. f_equal. symmetry. exact E2.
    - rewrite HV, E1. change (2 ^ 52) with (2 * 2 ^ 51). ring. }
  assert (HQ : 0 < Zpos m * 2 ^ (e - e')) by (apply Z.mul_pos_pos; lia).
  destruct (Zpos m * 2 ^ (e - e')) as [|Q|Q] eqn:EQ; try lia.
  assert (Em' : match sh with
                | 0 => Zpos mz
                | Zpos _ => Z.shiftl (Zpos mz) sh
                | Zneg _ => 0
                end = Zpos Q * 2 ^ 52).
  { destruct sh as [|p|p] eqn:Es; [ | | lia ].
    - rewrite Z.pow_0_r, Z.mul_1_r in Hm'. exact Hm'.
    - rewrite Z.shiftl_mul_pow2 by lia. exact Hm'. }
  rewrite Em'. change (Zpos 4503599627370496) with (2 ^ 52).
  rewrite div_eucl_exact by reflexivity.
  change (new_location (2 ^ 52) 0) with loc_Exact.
  apply binary_round_aux_canonical; try assumption.
  rewrite <- EQ, <- Z.mul_assoc, <- Z.pow_add_r by lia.
  do 2 f_equal. lia.
Qed.

Lemma add_opposite (m : positive) (e : Z) :
  (S754_finite true m e + S754_finite false m e)%f64 = pZero.
Proof.
  unfold add, SFadd. cbn [cond_Zopp]. rewrite Z.add_opp_diag_l. reflexivity.
Qed.

Lemma sub_self (s : bool) (m : positive) (e : Z) :
  (S754_finite s m e - S754_finite s m e)%f64 = pZero.
Proof. unfold sub, SFsub. rewrite Z.sub_diag. reflexivity. Qed.

End ExactOperations.

(** ** Arithmetic *)

(** C1: for approximate numbers [a] and [b], [Sub(a, b)] has value
    [a.val - b.val] and delta [a.delta + b.delta]; [Add] differs from it in
    the value only, so the deltas add under subtraction as under addition. *)
Theorem Sub_value_delta (a b : Float64) :
  approximate a -> approximate b ->
  Float64.Value (Sub a b) = (val a - val b)%f64
  /\ Float64.Delta (Sub a b) = (delta a + delta b)%f64
  /\ Float64.Delta (Sub a b) = Float64.Delta (Add a b).
Proof.
  intros Ha Hb. unfold Sub, Add, New, Float64.Value, Float64.Delta; simpl.
  rewrite Abs_of_sign_clear by (apply add_sign_clear; assumption).
  auto.
Qed.

Lemma Sub_value_delta_witness :
  let a := New (of_Z 100) (of_ratio 1 2) in
  let b := New (of_Z 50) (of_ratio 1 2) in
  (approximate a /\ approximate b)
  /\ Float64.Value (Sub a b) = (of_Z 100 - of_Z 50)%f64
  /\ Float64.Delta (Sub a b) = (of_ratio 1 2 + of_ratio 1 2)%f64
  /\ Float64.Delta (Sub a b) = Float64.Delta (Add a b).
Proof.
  split; [ split; reflexivity | ].
  exact (Sub_value_delta (New (of_Z 100) (of_ratio 1 2))
           (New (of_Z 50) (of_ratio 1 2)) eq_refl eq_refl).
Defined.

(** C3: [Mul(a, b)] has value [a.val * b.val] and delta
    [|value * (|a.delta/a.val| + |b.delta/b.val|)|], the absolute product
    times the sum of the operands' relative errors. *)
Theorem Mul_value_delta (a b : Float64) :
  Float64.Value (Mul a b) = (val a * val b)%f64
  /\ Float64.Delta (Mul a b)
     = Abs ((val a * val b)
            * (Abs (delta a / val a) + Abs (delta b / val b)))%f64
  /\ Float64.Delta (Mul a b)
     = Abs (Float64.Value (Mul a b)
            * (Float64.RelDelta a + Float64.RelDelta b))%f64.
Proof.
  unfold Mul, New, Float64.Value, Float64.Delta, Float64.RelDelta; simpl.
  rewrite Abs_idempotent. auto.
Qed.

(** ** Ordering and overlap *)

(** C4: the comparisons are decided by the interval endpoints: [Lt] is
    [f.Max() < t.Min()], [Le] is [f.Max() <= t.Min()], and [Gt], [Ge] are
    [Le], [Lt] with the operands exchanged. *)
Theorem comparisons_by_endpoints (f t : Float64) :
  (Float64.Lt f t = true <-> (Float64.Max f <? Float64.Min t)%f64 = true)
  /\ (Float64.Le f t = true <-> (Float64.Max f <=? Float64.Min t)%f64 = true)
  /\ Float64.Gt f t = Float64.Le t f
  /\ Float64.Ge f t = Float64.Lt t f.
Proof.
  unfold Float64.Lt, Float64.Le, Float64.Gt, Float64.Ge,
    Float64.Max, Float64.Min.
  repeat split; auto.
Qed.

(** C5: [Overlap(f, t)] holds exactly when neither [Le(f, t)] nor [Le(t, f)]
    does; for [New(1,1)] and [New(2,1)] the four comparisons are false and
    [Overlap] is true. *)
Theorem Overlap_iff_no_Le :
  (forall f t : Float64,
      Overlap f t = true
      <-> (Float64.Le f t = false /\ Float64.Le t f = false))
  /\ (let f := New (of_Z 1) (of_Z 1) in
      let t := New (of_Z 2) (of_Z 1) in
      Float64.Lt f t = false /\ Float64.Le f t = false
      /\ Float64.Gt f t = false /\ Float64.Ge f t = false
      /\ Overlap f t = true).
Proof.
  split.
  - intros f t. unfold Overlap.
    rewrite Bool.andb_true_iff, !Bool.negb_true_iff. tauto.
  - vm_compute. repeat split.
Qed.

(** ** Construction from interval bounds *)

(** The round trip through [Min], [Max] and [NewMinMax] is exact for
    integer-valued approximate numbers of moderate size. *)
Lemma NewMinMax_Min_Max_integers (v d : Z) :
  0 <= d -> Z.abs v + d < 2 ^ 52 ->
  let a := New (of_Z v) (of_Z d) in
  NewMinMax (Float64.Min a) (Float64.Max a) = (a, None).
Proof.
  intros Hd Hv a. subst a.
  assert (E52 : 2 ^ 53 = 2 * 2 ^ 52) by reflexivity.
  unfold NewMinMax, Float64.Min, Float64.Max, New; simpl val; simpl delta.
  rewrite (Abs_of_Z_nonneg d Hd).
  rewrite add_of_Z, sub_of_Z by lia.
  rewrite ltb_of_Z by lia.
  destruct (Z.ltb_spec (v + d) (v - d)) as [Hlt|_]; [ lia | ].
  rewrite add_of_Z, sub_of_Z by lia.
  replace (v - d + (v + d)) with (2 * v) by ring.
  replace (v + d - (v - d)) with (2 * d) by ring.
  rewrite !div_of_Z_2 by lia.
  rewrite Abs_idempotent, (Abs_of_Z_nonneg d Hd). reflexivity.
Qed.

(** [NewMinMax(a.Min(), a.Max())] never fails on an approximate number:
    [val + delta] is not below [val - delta], whatever the rounding. *)
Lemma NewMinMax_Min_Max_succeeds (a : Float64) :
  approximate a ->
  failed (NewMinMax (Float64.Min a) (Float64.Max a)) = false.
Proof.
  intros Ha. unfold NewMinMax, Float64.Min, Float64.Max, failed.
  rewrite (Max_not_below_Min (val a) (delta a) Ha). reflexivity.
Qed.

(** The round trip through [Min], [Max] and [NewMinMax] is exact whenever
    the four sums and differences it computes are floats; a value of [-0]
    comes back as [+0]. *)
Lemma NewMinMax_Min_Max_exact (a : Float64) :
  approximate a ->
  valid (val a) = true -> valid (delta a) = true ->
  is_finite (val a) = true -> is_finite (delta a) = true ->
  representable (units (val a) - units (delta a)) ->
  representable (units (val a) + units (delta a)) ->
  representable (2 * units (val a)) ->
  representable (2 * units (delta a)) ->
  NewMinMax (Float64.Min a) (Float64.Max a)
  = (mkFloat64 (if is_neg_zero (val a) then pZero else val a) (delta a),
     None).
Proof.
  destruct a as [v d]. unfold approximate. cbn [val delta].
  intros Sd Vv Vd Fv Fd Rlo Rhi R2v R2d.
  unfold NewMinMax, Float64.Min, Float64.Max, New. cbn [val delta].
  rewrite Max_not_below_Min by assumption.
  destruct (sub_exact v d Vv Vd Fv Fd Rlo) as [Vlo [Flo Ulo]].
  destruct (add_exact v d Vv Vd Fv Fd Rhi) as [Vhi [Fhi Uhi]].
  assert (Hval : ((v - d + (v + d)) / of_Z 2)%f64
                 = if is_neg_zero v then pZero else v).
  { destruct (is_zero v) eqn:Zv.
    - destruct v as [sv| | |]; try discriminate.
      destruct d as [[]| | |[] md ed]; try discriminate.
      + destruct sv; reflexivity.
      + change (S754_zero sv - S754_finite false md ed)%f64
          with (S754_finite true md ed).
        change (S754_zero sv + S754_finite false md ed)%f64
          with (S754_finite false md ed).
        rewrite add_opposite. destruct sv; reflexivity.
    - replace (is_neg_zero v) with false
        by (destruct v; try discriminate; reflexivity).
      assert (R : representable (units (v - d)%f64 + units (v + d)%f64)).
      { rewrite Ulo, Uhi.
        replace (units v - units d + (units v + units d))
          with (2 * units v) by ring.
        exact R2v. }
      destruct (add_exact _ _ Vlo Vhi Flo Fhi R) as [Vs [Fs Us]].
      apply div_2_exact; try assumption.
      rewrite Us, Ulo, Uhi. ring. }
  assert (Hdelta : Abs (Abs ((v + d - (v - d)) / of_Z 2)%f64) = d).
  { destruct (is_zero d) eqn:Zd.
    - destruct d as [[]| | |]; try discriminate.
      destruct v as [sv| | |sv mv ev]; try discriminate.
      + destruct sv; reflexivity.
      + change (S754_finite sv mv ev + S754_zero false)%f64
          with (S754_finite sv mv ev).
        change (S754_finite sv mv ev - S754_zero false)%f64
          with (S754_finite sv mv ev).
        rewrite sub_self. reflexivity.
    - assert (R : representable (units (v + d)%f64 - units (v - d)%f64)).
      { rewrite Ulo, Uhi.
        replace (units v + units d - (units v - units d))
          with (2 * units d) by ring.
        exact R2d. }
      destruct (sub_exact _ _ Vhi Vlo Fhi Flo R) as [Vs [Fs Us]].
      rewrite (div_2_exact _ d) by
        (try assumption; rewrite Us, Ulo, Uhi; ring).
      destruct d as [| | |[] md ed]; try discriminate. reflexivity. }
  rewrite Hval, Hdelta. reflexivity.
Qed.

(** C6, as the code has it: [NewMinMax(min, max)] fails exactly when
    [max < min]; otherwise it succeeds with value [(min + max) / 2] and
    delta [|(max - min) / 2|], both computed in binary64.
    [NewMinMax(a.Min(), a.Max())] succeeds for every approximate number
    [a], whatever its value and delta.  It gives back the value and the
    delta of [a] whenever the sums and differences it computes are exact:
    [a] is finite and [val - delta], [val + delta], [min + max = 2 val] and
    [max - min = 2 delta] are floats (the halvings are then exact too); a
    value of [-0] comes back as [+0].  That is so in particular for every
    [a = New(v, d)] with integers [v] and [d >= 0] such that
    [|v| + d < 2^52]. *)
Theorem NewMinMax_spec :
  (forall min max : float64,
      failed (NewMinMax min max) = (max <? min)%f64)
  /\ (forall min max : float64,
         (max <? min)%f64 = false ->
         NewMinMax min max
         = (mkFloat64 ((min + max) / of_Z 2)%f64
              (Abs ((max - min) / of_Z 2)%f64), None))
  /\ (forall a : Float64,
         approximate a ->
         failed (NewMinMax (Float64.Min a) (Float64.Max a)) = false)
  /\ (forall a : Float64,
         approximate a ->
         valid (val a) = true -> valid (delta a) = true ->
         is_finite (val a) = true -> is_finite (delta a) = true ->
         representable (units (val a) - units (delta a)) ->
         representable (units (val a) + units (delta a)) ->
         representable (2 * units (val a)) ->
         representable (2 * units (delta a)) ->
         NewMinMax (Float64.Min a) (Float64.Max a)
         = (mkFloat64 (if is_neg_zero (val a) then pZero else val a)
              (delta a), None))
  /\ (forall v d : Z,
         0 <= d -> Z.abs v + d < 2 ^ 52 ->
         let a := New (of_Z v) (of_Z d) in
         NewMinMax (Float64.Min a) (Float64.Max a) = (a, None)).
Proof.
  split; [ | split; [ | split; [ | split ] ] ].
  - intros min max. unfold NewMinMax, failed.
    destruct (max <? min)%f64; reflexivity.
  - intros min max H. unfold NewMinMax, New. rewrite H, Abs_idempotent.
    reflexivity.
  - exact NewMinMax_Min_Max_succeeds.
  - exact NewMinMax_Min_Max_exact.
  - exact NewMinMax_Min_Max_integers.
Qed.

(** C6, as stated, fails: [a = New(4.2, 0.3)] has a finite delta, yet
    [NewMinMax(a.Min(), a.Max())] is [4.2±0.2999999999999998]; and for the
    integer-valued [b = New(2^53, 1)] it is [2^53±0.5]. *)
Lemma NewMinMax_Min_Max_inexact :
  let a := New (of_ratio 42 10) (of_ratio 3 10) in
  let b := New (of_Z 9007199254740992) (of_Z 1) in
  is_finite (delta a) = true
  /\ NewMinMax (Float64.Min a) (Float64.Max a)
     = (New (of_ratio 42 10) (of_ratio 2999999999999998 10000000000000000),
        None)
  /\ eqb (of_ratio 2999999999999998 10000000000000000) (delta a) = false
  /\ is_finite (delta b) = true
  /\ NewMinMax (Float64.Min b) (Float64.Max b)
     = (New (of_Z 9007199254740992) (of_ratio 1 2), None)
  /\ eqb (of_ratio 1 2) (delta b) = false.
Proof. vm_compute. repeat split. Qed.

(** Shows a value representable by naming the float that holds it. *)
Ltac float_of x := exists x; split; [ | split ]; vm_compute; reflexivity.

(** Checks the conditions of the exact round trip of [a] by computation. *)
Ltac exact_round_trip a :=
  etransitivity;
  [ apply (NewMinMax_Min_Max_exact a);
    [ vm_compute; reflexivity | vm_compute; reflexivity
    | vm_compute; reflexivity | vm_compute; reflexivity
    | vm_compute; reflexivity
    | float_of (val a - delta a)%f64
    | float_of (val a + delta a)%f64
    | float_of (val a + val a)%f64
    | float_of (delta a + delta a)%f64 ]
  | vm_compute; reflexivity ].

(** The exact round trip at work, away from the small integers: the
    package's table, a binary fraction, the largest odd integer, an
    interval that starts at zero and is not made of binary fractions, and
    integers beyond [2^52]. *)
Example NewMinMax_Min_Max_exact_table :
  let a := New (of_Z 50) (of_ratio 5 10) in
  NewMinMax (Float64.Min a) (Float64.Max a) = (a, None).
Proof. intros a. exact_round_trip a. Qed.

Example NewMinMax_Min_Max_exact_fraction :
  let a := New (of_ratio 5 10) (of_ratio 25 100) in
  NewMinMax (Float64.Min a) (Float64.Max a) = (a, None).
Proof. intros a. exact_round_trip a. Qed.

Example NewMinMax_Min_Max_exact_odd :
  let a := New (of_Z 9007199254740991) (of_Z 1) in
  NewMinMax (Float64.Min a) (Float64.Max a) = (a, None).
Proof. intros a. exact_round_trip a. Qed.

Example NewMinMax_Min_Max_exact_tenth :
  let a := New (of_ratio 1 10) (of_ratio 1 10) in
  NewMinMax (Float64.Min a) (Float64.Max a) = (a, None).
Proof. intros a. exact_round_trip a. Qed.

Example NewMinMax_Min_Max_exact_large :
  let a := New (of_Z 4503599627370496) (of_Z 4503599627370496) in
  NewMinMax (Float64.Min a) (Float64.Max a) = (a, None).
Proof. intros a. exact_round_trip a. Qed.

Example NewMinMax_Min_Max_exact_neg_zero :
  let a := New (neg pZero) (of_Z 1) in
  NewMinMax (Float64.Min a) (Float64.Max a) = (New pZero (of_Z 1), None).
Proof. intros a. exact_round_trip a. Qed.

(** ** Function application *)

Section ApplyFacts.

Variables math_Log math_Exp : Go.func.

Lemma Apply_log (x : Float64) (fx : Go.func) (eps : float64) :
  eqFunc fx math_Log = true ->
  Float64.Apply math_Log math_Exp x fx eps = Float64.applyLog math_Log x.
Proof. intros H. unfold Float64.Apply. rewrite H. reflexivity. Qed.

Lemma Apply_exp (x : Float64) (fx : Go.func) (eps : float64) :
  eqFunc fx math_Log = false -> eqFunc fx math_Exp = true ->
  Float64.Apply math_Log math_Exp x fx eps = Float64.applyExp math_Exp x.
Proof. intros H1 H2. unfold Float64.Apply. rewrite H1, H2. reflexivity. Qed.

Lemma Apply_general (x : Float64) (fx : Go.func) (eps : float64) :
  eqFunc fx math_Log = false -> eqFunc fx math_Exp = false ->
  Float64.Apply math_Log math_Exp x fx eps
  = New (Go.call fx (val x))
      (Abs ((Go.call fx (val x + eps) - Go.call fx (val x - eps))
            / (of_Z 2 * eps) * delta x))%f64.
Proof. intros H1 H2. unfold Float64.Apply. rewrite H1, H2. reflexivity. Qed.

End ApplyFacts.

(** C8, as the code has it: when [Apply] recognizes its function argument
    as [math.Log] it returns the value [math.Log(x.val)] and the delta
    [|x.delta / x.val|]: [applyLog] itself takes no absolute value of
    [x.delta / x.val], but it stores the quotient through [New], which
    does. *)
Theorem Apply_log_value_delta
  (math_Log math_Exp : Go.func) (x : Float64) (fx : Go.func) (eps : float64) :
  eqFunc fx math_Log = true ->
  Float64.Value (Float64.Apply math_Log math_Exp x fx eps)
  = Go.call math_Log (val x)
  /\ Float64.Delta (Float64.Apply math_Log math_Exp x fx eps)
     = Abs (delta x / val x)%f64.
Proof.
  intros H. rewrite (Apply_log math_Log math_Exp x fx eps H).
  split; reflexivity.
Qed.

Lemma Apply_log_value_delta_witness :
  eqFunc Sample.Log Sample.Log = true
  /\ Float64.Value
       (Float64.Apply Sample.Log Sample.Exp (New (of_Z 1) (of_ratio 1 10))
          Sample.Log (of_ratio 1 1000))
     = Go.call Sample.Log (of_Z 1)
  /\ Float64.Delta
       (Float64.Apply Sample.Log Sample.Exp (New (of_Z 1) (of_ratio 1 10))
          Sample.Log (of_ratio 1 1000))
     = Abs (Abs (of_ratio 1 10) / of_Z 1)%f64.
Proof.
  split; [ reflexivity | ].
  exact (Apply_log_value_delta Sample.Log Sample.Exp
           (New (of_Z 1) (of_ratio 1 10)) Sample.Log (of_ratio 1 1000)
           eq_refl).
Defined.

(** C8, as stated, fails at [x = New(-2, 1)]: whatever [math.Log] and
    [eps] are, the delta returned for a function recognized as the logarithm
    is [0.5], while [x.delta / x.val] is [-0.5]. *)
Lemma Apply_log_delta_not_signed :
  let x := New (of_Z (-2)) (of_Z 1) in
  (forall (math_Log math_Exp fx : Go.func) (eps : float64),
      eqFunc fx math_Log = true ->
      Float64.Delta (Float64.Apply math_Log math_Exp x fx eps) = of_ratio 1 2)
  /\ (delta x / val x)%f64 = of_ratio (-1) 2
  /\ eqb (of_ratio 1 2) (of_ratio (-1) 2) = false.
Proof.
  split; [ | split; reflexivity ].
  intros math_Log math_Exp fx eps H.
  rewrite (Apply_log math_Log math_Exp _ fx eps H). reflexivity.
Qed.

(** C9: for a function [fx] that is neither [math.Log] nor [math.Exp],
    [Apply] returns the value [fx(x.val)], taken at the unperturbed centre,
    and the delta
    [|(fx(x.val + eps) - fx(x.val - eps)) / (2 * eps) * x.delta|]. *)
Theorem Apply_general_value_delta
  (math_Log math_Exp : Go.func) (x : Float64) (fx : Go.func) (eps : float64) :
  eqFunc fx math_Log = false -> eqFunc fx math_Exp = false ->
  Float64.Value (Float64.Apply math_Log math_Exp x fx eps)
  = Go.call fx (val x)
  /\ Float64.Delta (Float64.Apply math_Log math_Exp x fx eps)
     = Abs ((Go.call fx (val x + eps) - Go.call fx (val x - eps))
            / (of_Z 2 * eps) * delta x)%f64.
Proof.
  intros H1 H2. rewrite (Apply_general math_Log math_Exp x fx eps H1 H2).
  unfold New, Float64.Value, Float64.Delta; simpl.
  rewrite Abs_idempotent. split; reflexivity.
Qed.

(** The package's own test: [x*x] applied to [10±0.1] with [eps = 1e-3]
    gives [100±1.9999999999988916]. *)
Lemma Apply_general_value_delta_witness :
  (eqFunc Sample.square Sample.Log = false
   /\ eqFunc Sample.square Sample.Exp = false)
  /\ Float64.Value
       (Float64.Apply Sample.Log Sample.Exp (New (of_Z 10) (of_ratio 1 10))
          Sample.square (of_ratio 1 1000))
     = of_Z 100
  /\ Float64.Delta
       (Float64.Apply Sample.Log Sample.Exp (New (of_Z 10) (of_ratio 1 10))
          Sample.square (of_ratio 1 1000))
     = of_ratio 4999999999997229 2500000000000000.
Proof.
  split; [ split; reflexivity | ].
  exact (Apply_general_value_delta Sample.Log Sample.Exp
           (New (of_Z 10) (of_ratio 1 10)) Sample.square (of_ratio 1 1000)
           eq_refl eq_refl).
Defined.

(** ** The sign of delta *)

Lemma sign_clear_unsigned (f : Float64) :
  sign_clear (delta f) = true -> delta_unsigned f.
Proof.
  unfold delta_unsigned, Float64.Delta.
  destruct (delta f) as [[]|[]| |[] m e]; simpl; intros H;
    repeat split; congruence || reflexivity.
Qed.

Lemma New_unsigned (v d : float64) : delta_unsigned (New v d).
Proof. apply sign_clear_unsigned, Abs_sign_clear. Qed.

Lemma zeroFloat64_unsigned : delta_unsigned zeroFloat64.
Proof. apply sign_clear_unsigned. reflexivity. Qed.

Lemma Parse_unsigned (ParseFloat : string -> option float64) (s : string) :
  delta_unsigned (fst (Parse ParseFloat s)).
Proof.
  unfold Parse.
  destruct (Go.Split _ _) as [|s0 [|s1 [|s2 l]]]; simpl;
    try apply zeroFloat64_unsigned.
  - destruct (ParseFloat s0); simpl;
      [ apply sign_clear_unsigned; reflexivity | apply zeroFloat64_unsigned ].
  - destruct (ParseFloat s0); simpl; [ | apply zeroFloat64_unsigned ].
    destruct (ParseFloat s1); simpl;
      [ apply sign_clear_unsigned, Abs_sign_clear | apply zeroFloat64_unsigned ].
Qed.

(** C2, as the code has it: the delta of every [Float64] returned by an
    exported operation, for any arguments whatever, has a clear sign bit:
    it is never negative, and it is [>= 0] unless it is a NaN. *)
Theorem delta_never_negative
  (ParseFloat : string -> option float64) (math_Log math_Exp : Go.func) :
  (forall v d, delta_unsigned (New v d))
  /\ (forall min max, delta_unsigned (fst (NewMinMax min max)))
  /\ (forall s, delta_unsigned (fst (Parse ParseFloat s)))
  /\ (forall a b, delta_unsigned (Add a b))
  /\ (forall a b, delta_unsigned (Sub a b))
  /\ (forall a b, delta_unsigned (Mul a b))
  /\ (forall a b, delta_unsigned (Div a b))
  /\ (forall f c, delta_unsigned (Float64.Mul f c))
  /\ (forall f fx eps,
         delta_unsigned (Float64.Apply math_Log math_Exp f fx eps)).
Proof.
  repeat match goal with |- _ /\ _ => split end; intros;
    try apply New_unsigned; try apply Parse_unsigned.
  - unfold NewMinMax. destruct (_ <? _)%f64; simpl;
      [ apply zeroFloat64_unsigned | apply New_unsigned ].
  - unfold Float64.Apply.
    destruct (eqFunc fx math_Log); [ apply New_unsigned | ].
    destruct (eqFunc fx math_Exp); apply New_unsigned.
Qed.

(** C2, as stated, fails: the product of the exact zero [New(0, 0)] and
    [New(1, 1)] has a NaN for delta, and [0 <= NaN] is false.  So does
    [New(0, NaN)]. *)
Lemma delta_may_be_NaN :
  Float64.Delta (Mul (New (of_Z 0) (of_Z 0)) (New (of_Z 1) (of_Z 1))) = NaN
  /\ Float64.Delta (New (of_Z 0) NaN) = NaN
  /\ (pZero <=? NaN)%f64 = false.
Proof. repeat split. Qed.

(** ** Division by a zero-valued divisor *)

(** C7, as the code has it: [Div] is a total function, so a zero-valued
    divisor [b] is no error.  The relative error of [b] is [+Inf] when
    [b.delta] is neither zero nor a NaN, and a NaN otherwise.  The delta of
    the quotient is never finite: it is [+Inf] or a NaN, and it is [+Inf]
    exactly when [b.delta] is neither zero nor a NaN, [a.val] is neither
    zero nor a NaN, [a.delta] is not a NaN and [a.val], [a.delta] are not
    both infinite. *)
Theorem Div_by_zero_value (a b : Float64) :
  is_zero (val b) = true ->
  Float64.RelDelta b
  = (if is_zero (delta b) || is_nan (delta b) then NaN else pInf)
  /\ (Float64.Delta (Div a b) = pInf \/ Float64.Delta (Div a b) = NaN)
  /\ (Float64.Delta (Div a b) = pInf
      <-> (is_zero (delta b) || is_nan (delta b)
           || is_zero (val a) || is_nan (val a) || is_nan (delta a)
           || (is_inf (delta a) && is_inf (val a))) = false).
Proof.
  intros Hb. unfold Float64.RelDelta, Float64.Delta, Div, New; simpl.
  rewrite Abs_idempotent.
  pose proof (div_nan_iff (delta a) (val a)) as Hn.
  destruct (val b) as [sb| | |]; try discriminate.
  assert (HrelB : Abs (delta b / S754_zero sb)%f64
                  = if is_zero (delta b) || is_nan (delta b)
                    then NaN else pInf)
    by (destruct (delta b) as [?|?| |? ? ?]; reflexivity).
  rewrite HrelB. split; [ reflexivity | ].
  destruct (is_zero (delta b) || is_nan (delta b)); simpl.
  - assert (E : forall v r : float64, Abs (v * (Abs r + NaN))%f64 = NaN)
      by (intros [?|?| |? ? ?] [?|?| |? ? ?]; reflexivity).
    rewrite E. split; [ right; reflexivity | ].
    split; discriminate.
  - destruct (delta a / val a)%f64 as [sq|sq| |sq mq eq] eqn:Eq;
      simpl in Hn; destruct (val a) as [sa|sa| |sa ma ea];
      destruct (delta a) as [sd|sd| |sd md ed];
      simpl in Hn; try discriminate Hn; simpl;
      (split; [ (left; reflexivity) || (right; reflexivity)
              | split; reflexivity || discriminate ]).
Qed.

Lemma Div_by_zero_value_witness :
  let a := New (of_Z 1) (of_ratio 1 10) in
  let b := New (of_Z 0) (of_ratio 1 10) in
  is_zero (val b) = true
  /\ Float64.RelDelta b = pInf
  /\ Float64.Delta (Div a b) = pInf.
Proof.
  split; [ reflexivity | ].
  destruct (Div_by_zero_value (New (of_Z 1) (of_ratio 1 10))
              (New (of_Z 0) (of_ratio 1 10)) eq_refl) as [H1 [_ H3]].
  split; [ exact H1 | apply H3; reflexivity ].
Defined.

(** C7, as stated, fails for the exact zero divisor [New(0, 0)]: its
    relative error is a NaN and so is the delta of [Div(New(1, 0.1), b)];
    and [Div(New(0, 1), New(0, 1))] has a NaN delta although the divisor's
    relative error is infinite. *)
Lemma Div_by_exact_zero_NaN :
  let a := New (of_Z 1) (of_ratio 1 10) in
  let b := New (of_Z 0) (of_Z 0) in
  let c := New (of_Z 0) (of_Z 1) in
  is_zero (val b) = true
  /\ Float64.RelDelta b = NaN
  /\ Float64.Delta (Div a b) = NaN
  /\ is_inf (Float64.Delta (Div a b)) = false
  /\ Float64.RelDelta c = pInf
  /\ Float64.Delta (Div c c) = NaN.
Proof. repeat split. Qed.

(** ** Rendering and parsing *)

Section StringFacts.

Local Open Scope string_scope.
Local Open Scope Z_scope.

Lemma Zbyte_byteZ (c : ascii) : Go.Zbyte (Go.byteZ c) = c.
Proof.
  unfold Go.Zbyte, Go.byteZ. rewrite N2Z.id. apply ascii_N_embedding.
Qed.

Lemma byteZ_nonneg (c : ascii) : 0 <= Go.byteZ c.
Proof. unfold Go.byteZ. apply N2Z.is_nonneg. Qed.

Lemma plain_cons (c : ascii) (s : string) :
  plain (String c s) = true ->
  (Go.byteZ c <? 128) = true /\ Go.IsSpace (Go.byteZ c) = false
  /\ plain s = true.
Proof.
  simpl. rewrite !Bool.andb_true_iff, Bool.negb_true_iff. tauto.
Qed.

Lemma Map_from_plain (s rest : string) :
  plain s = true ->
  Go.Map_from strip (s ++ rest) 0 = s ++ Go.Map_from strip rest 0.
Proof.
  induction s as [|c s IH]; intros Hs; [ reflexivity | ].
  apply plain_cons in Hs. destruct Hs as [Hc [Hsp Hs]].
  change ((String c s) ++ rest) with (String c (s ++ rest)).
  cbn [Go.Map_from Go.DecodeRuneInString]. rewrite Hc.
  unfold strip at 1 2. rewrite Hsp.
  pose proof (byteZ_nonneg c) as H0.
  destruct (Z.ltb_spec (Go.byteZ c) 0) as [Hneg|_]; [ lia | ].
  unfold Go.EncodeRune. rewrite Hc, Zbyte_byteZ.
  cbn [Nat.sub append]. rewrite IH by assumption. reflexivity.
Qed.

Lemma append_empty_r (s : string) : s ++ "" = s.
Proof. induction s as [|c s IH]; simpl; congruence. Qed.

Lemma Map_from_separator (rest : string) :
  Go.Map_from strip ("±" ++ rest) 0 = "±" ++ Go.Map_from strip rest 0.
Proof. reflexivity. Qed.

Lemma Map_rendering (s1 s2 : string) :
  plain s1 = true -> plain s2 = true ->
  Go.Map strip (s1 ++ "±" ++ s2) = s1 ++ "±" ++ s2.
Proof.
  intros H1 H2. unfold Go.Map.
  rewrite Map_from_plain by assumption.
  rewrite Map_from_separator.
  rewrite <- (append_empty_r s2) at 1. rewrite Map_from_plain by assumption.
  simpl. rewrite append_empty_r. reflexivity.
Qed.

Lemma prefix_separator_plain (c : ascii) (s : string) :
  (Go.byteZ c <? 128) = true -> prefix "±" (String c s) = false.
Proof.
  intros Hc. cbn [prefix].
  destruct (ascii_dec _ c) as [E|_]; [ | reflexivity ].
  subst c. discriminate Hc.
Qed.

Lemma Split_from_plain (s : string) :
  plain s = true -> Go.Split_from "±" s 0 = [s].
Proof.
  induction s as [|c s IH]; intros Hs; [ reflexivity | ].
  apply plain_cons in Hs. destruct Hs as [Hc [_ Hs]].
  cbn [Go.Split_from]. rewrite (prefix_separator_plain c s Hc).
  rewrite IH by assumption. reflexivity.
Qed.

Lemma Split_rendering (s1 s2 : string) :
  plain s1 = true -> plain s2 = true ->
  Go.Split (s1 ++ "±" ++ s2) "±" = [s1; s2].
Proof.
  intros H1 H2. unfold Go.Split.
  induction s1 as [|c s1 IH].
  - change ("" ++ "±" ++ s2) with ("±" ++ s2).
    cbn. rewrite Split_from_plain by assumption.
    destruct s2; reflexivity.
  - apply plain_cons in H1. destruct H1 as [Hc [_ H1]].
    change ((String c s1) ++ "±" ++ s2) with (String c (s1 ++ "±" ++ s2)).
    cbn [Go.Split_from]. rewrite (prefix_separator_plain c _ Hc).
    rewrite IH by assumption. reflexivity.
Qed.

End StringFacts.

(** C10: for an approximate number [f] whose two components are rendered
    faithfully, as [fmt] and [strconv] render every finite [float64],
    [Parse(f.String())] succeeds and returns [f]. *)
Theorem Parse_String_roundtrip
  (fmtv : float64 -> string) (ParseFloat : string -> option float64)
  (f : Float64) :
  is_finite (val f) = true -> is_finite (delta f) = true ->
  approximate f ->
  renders_faithfully fmtv ParseFloat (val f) ->
  renders_faithfully fmtv ParseFloat (delta f) ->
  Parse ParseFloat (Float64.String fmtv f) = (f, None).
Proof.
  intros _ _ Hf [Hpv Hrv] [Hpd Hrd].
  unfold Parse, Float64.String. fold strip.
  rewrite (Map_rendering _ _ Hpv Hpd), (Split_rendering _ _ Hpv Hpd).
  rewrite Hrv, Hrd, (Abs_of_sign_clear _ Hf).
  destruct f; reflexivity.
Qed.

Lemma Parse_String_roundtrip_witness :
  let f := New (of_ratio 42 10) (of_ratio 3 10) in
  (is_finite (val f) = true /\ is_finite (delta f) = true /\ approximate f
   /\ renders_faithfully Sample.fmtv Go.ParseFloat (val f)
   /\ renders_faithfully Sample.fmtv Go.ParseFloat (delta f))
  /\ Float64.String Sample.fmtv f = "4.2±0.3"%string
  /\ Parse Go.ParseFloat (Float64.String Sample.fmtv f) = (f, None).
Proof.
  split; [ repeat split; vm_compute; reflexivity | ].
  split; [ reflexivity | ].
  apply (Parse_String_roundtrip Sample.fmtv Go.ParseFloat
           (New (of_ratio 42 10) (of_ratio 3 10)));
    repeat split; vm_compute; reflexivity.
Defined.

(** ** Further properties of the package *)

Lemma f64_add_comm (x y : float64) : (x + y)%f64 = (y + x)%f64.
Proof.
  destruct x as [[]|[]| |sx mx ex]; destruct y as [[]|[]| |sy my ey];
    try reflexivity.
  unfold add, SFadd. rewrite (Z.min_comm ey ex). f_equal. apply Z.add_comm.
Qed.

Lemma f64_mul_comm (x y : float64) : (x * y)%f64 = (y * x)%f64.
Proof.
  destruct x as [sx|sx| |sx mx ex]; destruct y as [sy|sy| |sy my ey];
    unfold mul, SFmul; rewrite ?(Bool.xorb_comm sy sx); try reflexivity.
  rewrite (Pos.mul_comm my mx), (Z.add_comm ey ex). reflexivity.
Qed.

Lemma Abs_neg (x : float64) : Abs (neg x) = Abs x.
Proof. destruct x; reflexivity. Qed.

Lemma mul_finite_not_nan (sx sy : bool) (mx my : positive) (ex ey : Z) :
  is_nan (S754_finite sx mx ex * S754_finite sy my ey)%f64 = false.
Proof. unfold mul, SFmul. apply binary_round_aux_not_nan. lia. Qed.

Lemma sub_diag (y : float64) :
  (y - y)%f64 = pZero \/ (y - y)%f64 = NaN.
Proof.
  destruct y as [[]|[]| |s m e]; auto.
  left. unfold sub, SFsub. rewrite Z.sub_diag. reflexivity.
Qed.

Lemma add_zero_r (x : float64) :
  x <> S754_zero true -> (x + pZero)%f64 = x.
Proof. destruct x as [[]|[]| |s m e]; intros H; try reflexivity. congruence. Qed.

Lemma sub_zero_r (x : float64) : (x - pZero)%f64 = x.
Proof. destruct x as [[]|[]| |s m e]; reflexivity. Qed.


Lemma digits2_pos_mul_lower (pa pb : positive) :
  Zpos (digits2_pos pa) + Zpos (digits2_pos pb) - 1
  <= Zpos (digits2_pos (pa * pb)).
Proof.
  pose proof (digits2_pos_bounds pa) as [La _].
  pose proof (digits2_pos_bounds pb) as [Lb _].
  pose proof (digits2_pos_bounds (pa * pb)) as [_ U].
  set (da := Zpos (digits2_pos pa)) in *.
  set (db := Zpos (digits2_pos pb)) in *.
  set (d := Zpos (digits2_pos (pa * pb))) in *.
  assert (Hda : 1 <= da) by (subst da; lia).
  assert (Hdb : 1 <= db) by (subst db; lia).
  destruct (Z.le_gt_cases (da + db - 1) d) as [?|Hgt]; [ assumption | ].
  assert (Hp : 2 ^ (da - 1) * 2 ^ (db - 1) <= Zpos pa * Zpos pb)
    by (apply Z.mul_le_mono_nonneg; try assumption; apply Z.pow_nonneg; lia).
  rewrite <- Z.pow_add_r in Hp by lia.
  assert (2 ^ d <= 2 ^ (da - 1 + (db - 1))) by (apply Z.pow_le_mono_r; lia).
  rewrite Pos2Z.inj_mul in U. lia.
Qed.

Lemma mul_canon (sa sb : bool) (pa pb : positive) :
  Zpos pa * Zpos pb < 2 ^ 53 ->
  (canon sa pa * canon sb pb)%f64 = canon (xorb sa sb) (pa * pb).
Proof.
  intros Hab.
  assert (Ha : Zpos pa < 2 ^ 53) by nia.
  assert (Hb : Zpos pb < 2 ^ 53) by nia.
  pose proof (digits2_pos_le_53 pa Ha) as Hda.
  pose proof (digits2_pos_le_53 pb Hb) as Hdb.
  assert (Hprod : Zpos (pa * pb) < 2 ^ 53)
    by (rewrite Pos2Z.inj_mul; exact Hab).
  pose proof (digits2_pos_le_53 _ Hprod) as Hd.
  pose proof (digits2_pos_mul_lower pa pb) as Hlow.
  pose proof (canon_mantissa pa Ha) as Ma.
  pose proof (canon_mantissa pb Hb) as Mb.
  remember (canon (xorb sa sb) (pa * pb)) as r eqn:Er.
  unfold mul, SFmul, canon. cbv zeta. subst r.
  set (da := Zpos (digits2_pos pa)) in *.
  set (db := Zpos (digits2_pos pb)) in *.
  set (d := Zpos (digits2_pos (pa * pb))) in *.
  replace (da - 53 + (db - 53)) with (d - 53 - (d + 53 - da - db)) by lia.
  apply binary_round_aux_exact; fold d; try lia.
  rewrite Pos2Z.inj_mul, Ma, Mb, Pos2Z.inj_mul.
  rewrite <- !Z.mul_assoc, <- Z.pow_add_r by lia.
  replace (53 - d + (d + 53 - da - db)) with ((53 - da) + (53 - db)) by lia.
  rewrite Z.pow_add_r by lia. ring.
Qed.

Lemma Abs_of_Z (z : Z) :
  Z.abs z < 2 ^ 53 -> Abs (of_Z z) = of_Z (Z.abs z).
Proof.
  intros Hz. rewrite (of_Z_canon z Hz), (of_Z_canon (Z.abs z)) by lia.
  destruct z; reflexivity.
Qed.

Lemma mul_of_Z (a b : Z) :
  a <> 0 -> b <> 0 ->
  Z.abs a < 2 ^ 53 -> Z.abs b < 2 ^ 53 -> Z.abs (a * b) < 2 ^ 53 ->
  (of_Z a * of_Z b)%f64 = of_Z (a * b).
Proof.
  intros Ha0 Hb0 Ha Hb Hab.
  rewrite (of_Z_canon a Ha), (of_Z_canon b Hb), (of_Z_canon _ Hab).
  destruct a as [|pa|pa]; destruct b as [|pb|pb]; try congruence;
    apply mul_canon; simpl in Hab; lia.
Qed.

Lemma Abs_mul_of_Z (a b : Z) :
  Z.abs a < 2 ^ 53 -> Z.abs b < 2 ^ 53 -> Z.abs (a * b) < 2 ^ 53 ->
  Abs (of_Z a * of_Z b)%f64 = of_Z (Z.abs (a * b)).
Proof.
  intros Ha Hb Hab.
  destruct (Z.eq_dec a 0) as [->|Ha0].
  - rewrite (of_Z_canon b Hb). destruct b; reflexivity.
  - destruct (Z.eq_dec b 0) as [->|Hb0].
    + rewrite (of_Z_canon a Ha), Z.mul_0_r. destruct a; reflexivity.
    + rewrite mul_of_Z by assumption. apply Abs_of_Z. assumption.
Qed.

Lemma leb_of_Z (a b : Z) :
  Z.abs a < 2 ^ 53 -> Z.abs b < 2 ^ 53 ->
  (of_Z a <=? of_Z b)%f64 = (a <=? b).
Proof.
  intros Ha Hb. unfold leb, SFleb, Z.leb.
  rewrite SFcompare_of_Z by assumption. destruct (a ?= b); reflexivity.
Qed.


(** X1: [New] discards the sign of the delta it is given, [New(v, -d) =
    New(v, d)]; what it returns is an approximate number, and rebuilding a
    number from its own components changes nothing. *)
Theorem New_ignores_sign (v d : float64) :
  New v (neg d) = New v d
  /\ approximate (New v d)
  /\ New (val (New v d)) (delta (New v d)) = New v d.
Proof.
  unfold New, approximate; simpl.
  rewrite Abs_neg, Abs_idempotent, Abs_sign_clear. auto.
Qed.

Lemma Mul_commutes (a b : Float64) : Mul a b = Mul b a.
Proof.
  unfold Mul, New; simpl.
  rewrite (f64_mul_comm (val a) (val b)).
  rewrite (f64_add_comm (Abs (delta a / val a)%f64) (Abs (delta b / val b)%f64)).
  reflexivity.
Qed.

(** X2: for operands whose values and deltas are not NaN, [Add] and [Mul]
    do not depend on the order of the operands, and the delta of a
    difference is the same in both directions.  (A NaN operand carries a
    payload that this model does not keep, and the payload of the result
    follows the order of the operands.) *)
Theorem Add_Mul_commutative (a b : Float64) :
  is_nan (val a) = false -> is_nan (delta a) = false ->
  is_nan (val b) = false -> is_nan (delta b) = false ->
  Add a b = Add b a /\ Mul a b = Mul b a
  /\ Float64.Delta (Sub a b) = Float64.Delta (Sub b a).
Proof.
  intros _ _ _ _.
  split; [ | split; [ apply Mul_commutes | ] ].
  - unfold Add, New; simpl.
    rewrite (f64_add_comm (val a) (val b)), (f64_add_comm (delta a) (delta b)).
    reflexivity.
  - unfold Sub, New, Float64.Delta; simpl.
    rewrite (f64_add_comm (delta a) (delta b)). reflexivity.
Qed.

Lemma Add_Mul_commutative_witness :
  (is_nan (val (New (of_Z 50) (of_ratio 1 2))) = false
   /\ is_nan (delta (New (of_Z 50) (of_ratio 1 2))) = false
   /\ is_nan (val (New (of_Z 100) (of_ratio 3 10))) = false
   /\ is_nan (delta (New (of_Z 100) (of_ratio 3 10))) = false)
  /\ Add (New (of_Z 50) (of_ratio 1 2)) (New (of_Z 100) (of_ratio 3 10))
     = Add (New (of_Z 100) (of_ratio 3 10)) (New (of_Z 50) (of_ratio 1 2))
  /\ Mul (New (of_Z 50) (of_ratio 1 2)) (New (of_Z 100) (of_ratio 3 10))
     = Mul (New (of_Z 100) (of_ratio 3 10)) (New (of_Z 50) (of_ratio 1 2))
  /\ Float64.Delta
       (Sub (New (of_Z 50) (of_ratio 1 2)) (New (of_Z 100) (of_ratio 3 10)))
     = Float64.Delta
         (Sub (New (of_Z 100) (of_ratio 3 10)) (New (of_Z 50) (of_ratio 1 2))).
Proof.
  split; [ repeat split | ].
  exact (Add_Mul_commutative (New (of_Z 50) (of_ratio 1 2))
           (New (of_Z 100) (of_ratio 3 10)) eq_refl eq_refl eq_refl eq_refl).
Defined.

(** X3: on integer-valued operands of moderate size [Add] and [Sub] are
    exact: the values add (subtract) and the deltas add, with no rounding. *)
Theorem integer_Add_Sub_exact (v1 d1 v2 d2 : Z) :
  0 <= d1 -> 0 <= d2 -> Z.abs v1 + Z.abs v2 + d1 + d2 < 2 ^ 53 ->
  Add (New (of_Z v1) (of_Z d1)) (New (of_Z v2) (of_Z d2))
  = New (of_Z (v1 + v2)) (of_Z (d1 + d2))
  /\ Sub (New (of_Z v1) (of_Z d1)) (New (of_Z v2) (of_Z d2))
     = New (of_Z (v1 - v2)) (of_Z (d1 + d2)).
Proof.
  intros H1 H2 Hb. unfold Add, Sub, New; simpl.
  rewrite !Abs_of_Z_nonneg by assumption.
  rewrite !add_of_Z, sub_of_Z by lia. auto.
Qed.

Lemma integer_Add_Sub_exact_witness :
  (0 <= 1 /\ 0 <= 2 /\ Z.abs 100 + Z.abs 50 + 1 + 2 < 2 ^ 53)
  /\ Add (New (of_Z 100) (of_Z 1)) (New (of_Z 50) (of_Z 2))
     = New (of_Z (100 + 50)) (of_Z (1 + 2))
  /\ Sub (New (of_Z 100) (of_Z 1)) (New (of_Z 50) (of_Z 2))
     = New (of_Z (100 - 50)) (of_Z (1 + 2)).
Proof.
  split; [ repeat split; vm_compute; congruence | ].
  apply (integer_Add_Sub_exact 100 1 50 2); vm_compute; congruence.
Defined.

(** X4: the scalar [Mul] method by a non-zero integer [c] is exact on a non-
    zero integer value: the value is [c * v] and the delta [|c| * d]. *)
Theorem integer_scalar_Mul_exact (v d c : Z) :
  v <> 0 -> c <> 0 -> 0 <= d -> Z.abs c * (Z.abs v + d) < 2 ^ 53 ->
  Float64.Mul (New (of_Z v) (of_Z d)) (of_Z c)
  = New (of_Z (c * v)) (of_Z (Z.abs c * d)).
Proof.
  intros Hv Hc Hd Hb. unfold Float64.Mul, New; simpl.
  assert (Z.abs c < 2 ^ 53) by nia.
  assert (Z.abs v < 2 ^ 53) by nia.
  assert (d < 2 ^ 53) by nia.
  assert (Z.abs (c * v) < 2 ^ 53) by (rewrite Z.abs_mul; nia).
  assert (Z.abs (c * d) < 2 ^ 53) by (rewrite Z.abs_mul; nia).
  rewrite (Abs_of_Z_nonneg d Hd).
  rewrite mul_of_Z by (assumption || lia).
  rewrite Abs_mul_of_Z by lia.
  rewrite Z.abs_mul, (Z.abs_eq d Hd).
  rewrite !Abs_of_Z_nonneg by nia. reflexivity.
Qed.

Lemma integer_scalar_Mul_exact_witness :
  (150 <> 0 /\ -2 <> 0 /\ 0 <= 1 /\ Z.abs (-2) * (Z.abs 150 + 1) < 2 ^ 53)
  /\ Float64.Mul (New (of_Z 150) (of_Z 1)) (of_Z (-2))
     = New (of_Z (-2 * 150)) (of_Z (Z.abs (-2) * 1)).
Proof.
  split; [ repeat split; vm_compute; congruence | ].
  apply (integer_scalar_Mul_exact 150 1 (-2)); vm_compute; congruence.
Defined.

(** X5: on integer-valued operands the five predicates decide exactly the
    comparisons of the interval endpoints [v - d] and [v + d]. *)
Theorem integer_comparisons (v1 d1 v2 d2 : Z) :
  0 <= d1 -> 0 <= d2 ->
  Z.abs v1 + d1 < 2 ^ 53 -> Z.abs v2 + d2 < 2 ^ 53 ->
  let f := New (of_Z v1) (of_Z d1) in
  let t := New (of_Z v2) (of_Z d2) in
  Float64.Lt f t = (v1 + d1 <? v2 - d2)
  /\ Float64.Le f t = (v1 + d1 <=? v2 - d2)
  /\ Float64.Gt f t = (v2 + d2 <=? v1 - d1)
  /\ Float64.Ge f t = (v2 + d2 <? v1 - d1)
  /\ Overlap f t = (v2 - d2 <? v1 + d1) && (v1 - d1 <? v2 + d2).
Proof.
  intros H1 H2 B1 B2 f t. subst f t.
  unfold Overlap, Float64.Gt, Float64.Ge, Float64.Lt, Float64.Le, New; simpl.
  rewrite !Abs_of_Z_nonneg by assumption.
  rewrite !add_of_Z, !sub_of_Z by lia.
  rewrite !ltb_of_Z, !leb_of_Z by lia.
  rewrite <- !Z.ltb_antisym. auto.
Qed.

Lemma integer_comparisons_witness :
  (0 <= 1 /\ 0 <= 1 /\ Z.abs 0 + 1 < 2 ^ 53 /\ Z.abs 3 + 1 < 2 ^ 53)
  /\ Float64.Lt (New (of_Z 0) (of_Z 1)) (New (of_Z 3) (of_Z 1)) = true
  /\ Overlap (New (of_Z 0) (of_Z 1)) (New (of_Z 3) (of_Z 1)) = false.
Proof.
  split; [ repeat split; vm_compute; congruence | ].
  destruct (integer_comparisons 0 1 3 1) as [HLt [_ [_ [_ HOv]]]];
    try (vm_compute; congruence).
  split; [ exact HLt | exact HOv ].
Defined.

(** X6: for integer bounds [lo <= hi] of equal parity, [NewMinMax(lo, hi)]
    succeeds with the midpoint and the half-width, and the interval of the
    number it returns is [lo, hi] again. *)
Theorem NewMinMax_integer_bounds (lo hi : Z) :
  lo <= hi -> Z.even (lo + hi) = true ->
  Z.abs lo < 2 ^ 52 -> Z.abs hi < 2 ^ 52 ->
  NewMinMax (of_Z lo) (of_Z hi)
  = (New (of_Z ((lo + hi) / 2)) (of_Z ((hi - lo) / 2)), None)
  /\ Float64.Min (fst (NewMinMax (of_Z lo) (of_Z hi))) = of_Z lo
  /\ Float64.Max (fst (NewMinMax (of_Z lo) (of_Z hi))) = of_Z hi.
Proof.
  intros Hle Hev Hlo Hhi.
  apply Z.even_spec in Hev. destruct Hev as [m Hm].
  assert (E52 : 2 ^ 53 = 2 * 2 ^ 52) by reflexivity.
  set (h := m - lo).
  assert (Hh : 0 <= h) by (subst h; lia).
  assert (Elo : lo = m - h) by (subst h; lia).
  assert (Ehi : hi = m + h) by (subst h; lia).
  assert (Em : (lo + hi) / 2 = m)
    by (rewrite Hm, Z.mul_comm; apply Z.div_mul; lia).
  assert (Eh : (hi - lo) / 2 = h)
    by (replace (hi - lo) with (h * 2) by lia; apply Z.div_mul; lia).
  assert (Hbound : Z.abs m + h < 2 ^ 52) by lia.
  rewrite Em, Eh.
  pose proof (NewMinMax_Min_Max_integers m h Hh Hbound) as RT.
  cbv zeta in RT.
  unfold Float64.Min, Float64.Max, New in RT; simpl val in RT; simpl delta in RT.
  rewrite (Abs_of_Z_nonneg h Hh) in RT.
  rewrite add_of_Z, sub_of_Z in RT by lia.
  rewrite <- Elo, <- Ehi in RT. rewrite RT. simpl fst.
  unfold Float64.Min, Float64.Max, New; simpl val; simpl delta.
  rewrite (Abs_of_Z_nonneg h Hh), add_of_Z, sub_of_Z by lia.
  rewrite <- Elo, <- Ehi. auto.
Qed.

Lemma NewMinMax_integer_bounds_witness :
  (0 <= 10 /\ Z.even (0 + 10) = true
   /\ Z.abs 0 < 2 ^ 52 /\ Z.abs 10 < 2 ^ 52)
  /\ NewMinMax (of_Z 0) (of_Z 10)
     = (New (of_Z ((0 + 10) / 2)) (of_Z ((10 - 0) / 2)), None)
  /\ Float64.Min (fst (NewMinMax (of_Z 0) (of_Z 10))) = of_Z 0
  /\ Float64.Max (fst (NewMinMax (of_Z 0) (of_Z 10))) = of_Z 10.
Proof.
  split; [ repeat split; vm_compute; congruence | ].
  apply (NewMinMax_integer_bounds 0 10); vm_compute; congruence.
Defined.

Lemma ltb_leb (x y : float64) : (x <? y)%f64 = true -> (x <=? y)%f64 = true.
Proof.
  unfold ltb, leb, SFltb, SFleb.
  destruct (SFcompare x y) as [[]|]; congruence.
Qed.

Lemma leb_false_ltb (x y : float64) :
  (x <=? y)%f64 = false -> (x <? y)%f64 = false.
Proof.
  unfold ltb, leb, SFltb, SFleb.
  destruct (SFcompare x y) as [[]|]; congruence.
Qed.

(** X7: [Overlap] is symmetric and excludes every ordering: when it holds
    none of [Lt], [Le], [Gt], [Ge] does; [Lt] implies [Le], [Ge] implies
    [Gt], and [Le] or [Gt] rule [Overlap] out. *)
Theorem Overlap_symmetric_exclusive (f t : Float64) :
  Overlap f t = Overlap t f
  /\ (Overlap f t = true ->
      Float64.Lt f t = false /\ Float64.Le f t = false
      /\ Float64.Gt f t = false /\ Float64.Ge f t = false)
  /\ (Float64.Lt f t = true -> Float64.Le f t = true)
  /\ (Float64.Ge f t = true -> Float64.Gt f t = true)
  /\ (Float64.Le f t = true -> Overlap f t = false)
  /\ (Float64.Gt f t = true -> Overlap f t = false).
Proof.
  unfold Overlap, Float64.Gt, Float64.Ge, Float64.Lt, Float64.Le.
  set (a := (val f + delta f <=? val t - delta t)%f64).
  set (b := (val t + delta t <=? val f - delta f)%f64).
  pose proof (leb_false_ltb (val f + delta f) (val t - delta t))%f64 as H1.
  pose proof (leb_false_ltb (val t + delta t) (val f - delta f))%f64 as H2.
  pose proof (ltb_leb (val f + delta f) (val t - delta t))%f64 as H3.
  pose proof (ltb_leb (val t + delta t) (val f - delta f))%f64 as H4.
  fold a in H1, H3. fold b in H2, H4.
  repeat match goal with |- _ /\ _ => split end; auto.
  - apply Bool.andb_comm.
  - rewrite Bool.andb_true_iff, !Bool.negb_true_iff. intros [Ha Hb]. auto.
  - intros ->. reflexivity.
  - intros ->. apply Bool.andb_false_r.
Qed.

(** X8: an exact number ([delta = 0], value not a NaN) compared with itself
    is both [Le] and [Gt], neither [Lt] nor [Ge], and does not [Overlap]
    itself. *)
Theorem exact_number_against_itself (v : float64) :
  is_nan v = false ->
  let f := New v pZero in
  Float64.Le f f = true /\ Float64.Gt f f = true
  /\ Float64.Lt f f = false /\ Float64.Ge f f = false
  /\ Overlap f f = false.
Proof.
  intros Hv f. subst f.
  unfold Overlap, Float64.Gt, Float64.Ge, Float64.Lt, Float64.Le, New.
  cbn [val delta]. change (Abs pZero) with pZero. rewrite sub_zero_r.
  assert (Hc : SFcompare (v + pZero)%f64 v = Some Eq).
  { destruct v as [[]|[]| |s m e]; try discriminate; try reflexivity.
    apply (SFcompare_refl (S754_finite s m e)). reflexivity. }
  unfold ltb, leb, SFltb, SFleb. rewrite Hc. auto.
Qed.

Lemma exact_number_against_itself_witness :
  is_nan (of_Z 1) = false
  /\ Float64.Le (New (of_Z 1) pZero) (New (of_Z 1) pZero) = true
  /\ Overlap (New (of_Z 1) pZero) (New (of_Z 1) pZero) = false.
Proof.
  split; [ reflexivity | ].
  destruct (exact_number_against_itself (of_Z 1) eq_refl)
    as [HLe [_ [_ [_ HOv]]]].
  split; [ exact HLe | exact HOv ].
Defined.

(** X9: a number with a NaN for value or delta is unordered: the four
    comparisons are false in both directions, and so it overlaps every
    number. *)
Theorem NaN_is_unordered (f t : Float64) :
  is_nan (val f) || is_nan (delta f) = true ->
  (Float64.Lt f t = false /\ Float64.Le f t = false
   /\ Float64.Gt f t = false /\ Float64.Ge f t = false)
  /\ (Float64.Lt t f = false /\ Float64.Le t f = false
      /\ Float64.Gt t f = false /\ Float64.Ge t f = false)
  /\ Overlap f t = true /\ Overlap t f = true.
Proof.
  intros H.
  assert (Hs : (val f + delta f)%f64 = NaN /\ (val f - delta f)%f64 = NaN).
  { destruct (val f) as [?|?| |? ? ?]; destruct (delta f) as [?|?| |? ? ?];
      try discriminate H; split; reflexivity. }
  destruct Hs as [Hp Hm].
  unfold Overlap, Float64.Gt, Float64.Ge, Float64.Lt, Float64.Le.
  rewrite Hp, Hm.
  assert (R : forall x : float64,
             (x <? NaN)%f64 = false /\ (x <=? NaN)%f64 = false)
    by (intros [?|?| |? ? ?]; split; reflexivity).
  destruct (R (val t + delta t)%f64) as [R1 R2]. rewrite R1, R2.
  repeat split.
Qed.

Lemma NaN_is_unordered_witness :
  is_nan (val (New NaN (of_Z 1))) || is_nan (delta (New NaN (of_Z 1))) = true
  /\ Float64.Le (New NaN (of_Z 1)) (New (of_Z 5) (of_Z 1)) = false
  /\ Overlap (New NaN (of_Z 1)) (New (of_Z 5) (of_Z 1)) = true.
Proof.
  split; [ reflexivity | ].
  destruct (NaN_is_unordered (New NaN (of_Z 1)) (New (of_Z 5) (of_Z 1)) eq_refl)
    as [[_ [HLe _]] [_ [HOv _]]].
  split; [ exact HLe | exact HOv ].
Defined.

(** X10: [RelDelta] is never negative; it is a NaN exactly when a component
    is a NaN, both are zero or both are infinite; it is zero for an exact
    number with a non-zero value and for an infinite value with a finite
    delta. *)
Theorem RelDelta_special_values (f : Float64) :
  sign_clear (Float64.RelDelta f) = true
  /\ is_nan (Float64.RelDelta f)
     = is_nan (delta f) || is_nan (val f)
       || (is_zero (delta f) && is_zero (val f))
       || (is_inf (delta f) && is_inf (val f))
  /\ (is_zero (delta f) = true ->
      is_zero (val f) = false -> is_nan (val f) = false ->
      Float64.RelDelta f = pZero)
  /\ (is_inf (val f) = true -> is_finite (delta f) = true ->
      Float64.RelDelta f = pZero).
Proof.
  unfold Float64.RelDelta.
  split; [ apply Abs_sign_clear | ].
  split.
  - rewrite <- div_nan_iff. destruct (delta f / val f)%f64; reflexivity.
  - split; intros H1; destruct (delta f) as [?|?| |? ? ?];
      try discriminate H1; destruct (val f) as [?|?| |? ? ?];
      try discriminate; try reflexivity; intros; try discriminate;
      try reflexivity.
Qed.

(** X11: with a zero-valued operand on either side [Mul] returns a NaN
    delta, and so does [Div] with a zero-valued dividend, whatever the
    deltas are. *)
Theorem zero_valued_operand_NaN_delta (a b : Float64) :
  is_zero (val a) = true ->
  Float64.Delta (Mul a b) = NaN
  /\ Float64.Delta (Mul b a) = NaN
  /\ Float64.Delta (Div a b) = NaN.
Proof.
  intros Ha.
  assert (HM : Float64.Delta (Mul a b) = NaN).
  { unfold Mul, New, Float64.Delta; simpl.
    destruct (val a) as [sa| | |]; try discriminate.
    generalize (delta b / val b)%f64; intros q.
    destruct (delta a) as [?|?| |? ? ?]; destruct q as [?|?| |? ? ?];
      destruct (val b) as [?|?| |? ? ?]; reflexivity. }
  split; [ exact HM | ].
  split.
  - rewrite <- (Mul_commutes a b). exact HM.
  - unfold Div, New, Float64.Delta; simpl.
    destruct (val a) as [sa| | |]; try discriminate.
    generalize (delta b / val b)%f64; intros q.
    destruct (delta a) as [?|?| |? ? ?]; destruct q as [?|?| |? ? ?];
      destruct (val b) as [?|?| |? ? ?]; reflexivity.
Qed.

Lemma zero_valued_operand_NaN_delta_witness :
  is_zero (val (New (of_Z 0) (of_ratio 1 2))) = true
  /\ Float64.Delta (Mul (New (of_Z 0) (of_ratio 1 2)) (New (of_Z 3) (of_Z 1)))
     = NaN
  /\ Float64.Delta (Mul (New (of_Z 3) (of_Z 1)) (New (of_Z 0) (of_ratio 1 2)))
     = NaN
  /\ Float64.Delta (Div (New (of_Z 0) (of_ratio 1 2)) (New (of_Z 3) (of_Z 1)))
     = NaN.
Proof.
  split; [ reflexivity | ].
  exact (zero_valued_operand_NaN_delta (New (of_Z 0) (of_ratio 1 2))
           (New (of_Z 3) (of_Z 1)) eq_refl).
Defined.

(** X12: the product and the quotient of two exact numbers with finite non-
    zero values are exact, unless the value overflows to an infinity: then
    the delta is a NaN. *)
Theorem exact_operands_exact_result (va vb : float64) :
  finite_nonzero va = true -> finite_nonzero vb = true ->
  Float64.Delta (Mul (New va pZero) (New vb pZero))
  = (if is_inf (va * vb)%f64 then NaN else pZero)
  /\ Float64.Delta (Div (New va pZero) (New vb pZero))
     = (if is_inf (va / vb)%f64 then NaN else pZero).
Proof.
  intros Ha Hb.
  destruct va as [| | |sa ma ea]; try discriminate.
  destruct vb as [| | |sb mb eb]; try discriminate.
  pose proof (mul_finite_not_nan sa sb ma mb ea eb) as HM.
  pose proof (div_finite_not_nan sa sb ma mb ea eb) as HD.
  unfold Mul, Div, New, Float64.Delta. cbn [val delta].
  change (Abs pZero) with pZero.
  change (Abs (pZero / S754_finite sa ma ea)%f64) with pZero.
  change (Abs (pZero / S754_finite sb mb eb)%f64) with pZero.
  change (pZero + pZero)%f64 with pZero.
  split.
  - destruct (S754_finite sa ma ea * S754_finite sb mb eb)%f64;
      try discriminate; destruct s; reflexivity.
  - destruct (S754_finite sa ma ea / S754_finite sb mb eb)%f64;
      try discriminate; destruct s; reflexivity.
Qed.

Lemma exact_operands_exact_result_witness :
  (finite_nonzero (of_Z 3) = true /\ finite_nonzero (of_Z 4) = true)
  /\ Float64.Delta (Mul (New (of_Z 3) pZero) (New (of_Z 4) pZero))
     = (if is_inf (of_Z 3 * of_Z 4)%f64 then NaN else pZero)
  /\ Float64.Delta (Div (New (of_Z 3) pZero) (New (of_Z 4) pZero))
     = (if is_inf (of_Z 3 / of_Z 4)%f64 then NaN else pZero).
Proof.
  split; [ split; reflexivity | ].
  exact (exact_operands_exact_result (of_Z 3) (of_Z 4) eq_refl eq_refl).
Defined.

(** X13: when [Apply] recognizes its function as [math.Exp] (and not as
    [math.Log]) it returns the value [math.Exp(x.val)] and the delta
    [|math.Exp(x.val) * x.delta|], calling neither the function it was
    handed nor using [eps]. *)
Theorem Apply_exp_value_delta
  (math_Log math_Exp : Go.func) (x : Float64) (fx : Go.func) (eps : float64) :
  eqFunc fx math_Log = false -> eqFunc fx math_Exp = true ->
  Float64.Value (Float64.Apply math_Log math_Exp x fx eps)
  = Go.call math_Exp (val x)
  /\ Float64.Delta (Float64.Apply math_Log math_Exp x fx eps)
     = Abs (Go.call math_Exp (val x) * delta x)%f64.
Proof.
  intros H1 H2. rewrite (Apply_exp math_Log math_Exp x fx eps H1 H2).
  split; reflexivity.
Qed.

Lemma Apply_exp_value_delta_witness :
  (eqFunc Sample.Exp Sample.Log = false /\ eqFunc Sample.Exp Sample.Exp = true)
  /\ Float64.Value
       (Float64.Apply Sample.Log Sample.Exp (New (of_Z 1) (of_ratio 1 10))
          Sample.Exp (of_ratio 1 1000))
     = Go.call Sample.Exp (of_Z 1)
  /\ Float64.Delta
       (Float64.Apply Sample.Log Sample.Exp (New (of_Z 1) (of_ratio 1 10))
          Sample.Exp (of_ratio 1 1000))
     = Abs (Go.call Sample.Exp (of_Z 1) * Abs (of_ratio 1 10))%f64.
Proof.
  split; [ split; reflexivity | ].
  exact (Apply_exp_value_delta Sample.Log Sample.Exp
           (New (of_Z 1) (of_ratio 1 10)) Sample.Exp (of_ratio 1 1000)
           eq_refl eq_refl).
Defined.

(** X14: on the general path, [eps = 0] makes the difference quotient [0/0]:
    the value is still [fx(x.val)], the delta is a NaN (for a value other
    than [-0], whose two perturbed points differ in sign). *)
Theorem Apply_zero_eps_NaN_delta
  (math_Log math_Exp : Go.func) (x : Float64) (fx : Go.func) :
  eqFunc fx math_Log = false -> eqFunc fx math_Exp = false ->
  is_neg_zero (val x) = false ->
  Float64.Value (Float64.Apply math_Log math_Exp x fx pZero)
  = Go.call fx (val x)
  /\ Float64.Delta (Float64.Apply math_Log math_Exp x fx pZero) = NaN.
Proof.
  intros H1 H2 Hz.
  rewrite (Apply_general math_Log math_Exp x fx pZero H1 H2).
  unfold New, Float64.Value, Float64.Delta. cbn [val delta].
  split; [ reflexivity | ].
  rewrite sub_zero_r.
  rewrite add_zero_r by (intros E; rewrite E in Hz; discriminate).
  change (of_Z 2 * pZero)%f64 with pZero.
  destruct (sub_diag (Go.call fx (val x))) as [E|E]; rewrite E;
    destruct (delta x); reflexivity.
Qed.

Lemma Apply_zero_eps_NaN_delta_witness :
  (eqFunc Sample.square Sample.Log = false
   /\ eqFunc Sample.square Sample.Exp = false
   /\ is_neg_zero (val (New (of_Z 10) (of_ratio 1 10))) = false)
  /\ Float64.Value
       (Float64.Apply Sample.Log Sample.Exp (New (of_Z 10) (of_ratio 1 10))
          Sample.square pZero)
     = Go.call Sample.square (of_Z 10)
  /\ Float64.Delta
       (Float64.Apply Sample.Log Sample.Exp (New (of_Z 10) (of_ratio 1 10))
          Sample.square pZero)
     = NaN.
Proof.
  split; [ repeat split | ].
  exact (Apply_zero_eps_NaN_delta Sample.Log Sample.Exp
           (New (of_Z 10) (of_ratio 1 10)) Sample.square
           eq_refl eq_refl eq_refl).
Defined.

Lemma to_hex_uint_not_Nil (n : N) : N.to_hex_uint n <> Hexadecimal.Nil.
Proof.
  intros E. pose proof (Unsigned.of_to n) as H. rewrite E in H.
  simpl in H. subst n. discriminate E.
Qed.

Lemma Sprintf_p_injective (f g : Go.func) :
  Go.Sprintf_p f = Go.Sprintf_p g -> Go.addr f = Go.addr g.
Proof.
  unfold Go.Sprintf_p. intros E. simpl in E. injection E as E.
  apply Unsigned.to_uint_inj.
  pose proof (NilZero.usu _ (to_hex_uint_not_Nil (Go.addr f))) as Hf.
  pose proof (NilZero.usu _ (to_hex_uint_not_Nil (Go.addr g))) as Hg.
  rewrite E in Hf. congruence.
Qed.

(** X15: [eqFunc] holds exactly when the two functions have the same code
    address, whatever they compute. *)
Theorem eqFunc_compares_addresses (f g : Go.func) :
  eqFunc f g = true <-> Go.addr f = Go.addr g.
Proof.
  unfold eqFunc. rewrite String.eqb_eq. split.
  - apply Sprintf_p_injective.
  - intros E. unfold Go.Sprintf_p. rewrite E. reflexivity.
Qed.

(** X16: whenever [Parse] or [NewMinMax] returns an error, the [Float64] it
    returns with it is the zero value. *)
Theorem errors_come_with_zero_value
  (ParseFloat : string -> option float64) :
  (forall s, failed (Parse ParseFloat s) = true ->
             fst (Parse ParseFloat s) = zeroFloat64)
  /\ (forall min max, failed (NewMinMax min max) = true ->
                      fst (NewMinMax min max) = zeroFloat64).
Proof.
  split.
  - intros s. unfold Parse, failed.
    destruct (Go.Split _ _) as [|s0 [|s1 [|s2 l]]]; simpl; auto.
    + destruct (ParseFloat s0); simpl; auto; discriminate.
    + destruct (ParseFloat s0); simpl; auto.
      destruct (ParseFloat s1); simpl; auto; discriminate.
  - intros min max. unfold NewMinMax, failed.
    destruct (max <? min)%f64; simpl; auto; discriminate.
Qed.

(** X17: [NewMinMax] does not reject a NaN bound: it returns no error and a
    number whose value and delta are NaN. *)
Theorem NewMinMax_NaN_bound (min max : float64) :
  is_nan min || is_nan max = true ->
  NewMinMax min max = (mkFloat64 NaN NaN, None).
Proof.
  intros H. unfold NewMinMax, New.
  destruct min as [?|?| |? ? ?]; destruct max as [?|?| |? ? ?];
    try discriminate H; reflexivity.
Qed.

Lemma NewMinMax_NaN_bound_witness :
  is_nan NaN || is_nan (of_Z 1) = true
  /\ NewMinMax NaN (of_Z 1) = (mkFloat64 NaN NaN, None).
Proof.
  split; [ reflexivity | ].
  exact (NewMinMax_NaN_bound NaN (of_Z 1) eq_refl).
Defined.

Section ParseFacts.

Local Open Scope string_scope.
Local Open Scope Z_scope.

Lemma Split_from_plain_separator (s rest : string) :
  plain s = true ->
  Go.Split_from "±" (s ++ "±" ++ rest) 0 = s :: Go.Split_from "±" rest 0.
Proof.
  intros Hs. induction s as [|c s IH].
  - change ("" ++ "±" ++ rest) with ("±" ++ rest). cbn.
    destruct rest; reflexivity.
  - apply plain_cons in Hs. destruct Hs as [Hc [_ Hs]].
    change ((String c s) ++ "±" ++ rest) with (String c (s ++ "±" ++ rest)).
    cbn [Go.Split_from]. rewrite (prefix_separator_plain c _ Hc).
    rewrite IH by assumption. reflexivity.
Qed.

Lemma forallb_plain_cons (s : string) (l : list string) :
  forallb plain (s :: l) = true -> plain s = true /\ forallb plain l = true.
Proof. simpl. apply Bool.andb_true_iff. Qed.

Lemma Map_from_join (parts : list string) :
  forallb plain parts = true ->
  Go.Map_from strip (join parts) 0 = join parts.
Proof.
  induction parts as [|s rest IH]; intros H; [ reflexivity | ].
  apply forallb_plain_cons in H. destruct H as [Hs Hrest].
  destruct rest as [|s' rest'].
  - simpl join. rewrite <- (append_empty_r s) at 1.
    rewrite Map_from_plain by assumption. simpl. apply append_empty_r.
  - change (join (s :: s' :: rest')) with (s ++ "±" ++ join (s' :: rest')).
    rewrite Map_from_plain by assumption.
    rewrite Map_from_separator, IH by assumption. reflexivity.
Qed.

Lemma Split_from_join (s : string) (rest : list string) :
  forallb plain (s :: rest) = true ->
  Go.Split_from "±" (join (s :: rest)) 0 = s :: rest.
Proof.
  revert s. induction rest as [|s' rest' IH]; intros s H;
    apply forallb_plain_cons in H; destruct H as [Hs Hrest].
  - simpl join. apply Split_from_plain. assumption.
  - change (join (s :: s' :: rest')) with (s ++ "±" ++ join (s' :: rest')).
    rewrite Split_from_plain_separator by assumption.
    rewrite IH by assumption. reflexivity.
Qed.

(** X18: on white-space-free ASCII pieces joined by the separator, [Parse]
    takes the branch the number of pieces selects: one piece is an exact
    number or an "exact float" error; two pieces give the value and the
    absolute delta, an "exact float" error when the first piece is malformed
    (checked first), a "delta float" error when only the second is; three or
    more are an "approximate number" error. *)
Theorem Parse_of_parts
  (ParseFloat : string -> option float64) (s0 : string) (rest : list string) :
  forallb plain (s0 :: rest) = true ->
  Parse ParseFloat (join (s0 :: rest))
  = match rest with
    | [] =>
      match ParseFloat s0 with
      | Some v => (mkFloat64 v pZero, None)
      | None =>
        (zeroFloat64,
         Some (Go.Errorf "could not parse as exact float: %v"
                 [Go.OStrings [s0]]))
      end
    | [s1] =>
      match ParseFloat s0, ParseFloat s1 with
      | Some v, Some d => (mkFloat64 v (Abs d), None)
      | Some _, None =>
        (zeroFloat64,
         Some (Go.Errorf "could not parse as delta float: %v"
                 [Go.OStrings [s0; s1]]))
      | None, _ =>
        (zeroFloat64,
         Some (Go.Errorf "could not parse as exact float: %v"
                 [Go.OStrings [s0; s1]]))
      end
    | _ :: _ :: _ =>
      (zeroFloat64,
       Some (Go.Errorf "could not parse as approximate number: %v"
               [Go.OStrings (s0 :: rest)]))
    end.
Proof.
  intros H. unfold Parse. fold strip. unfold Go.Map, Go.Split.
  rewrite (Map_from_join _ H), (Split_from_join _ _ H).
  destruct rest as [|s1 [|s2 l]]; reflexivity.
Qed.

Lemma Parse_of_parts_witness :
  forallb plain ["1"; "2"; "3"] = true
  /\ join ["1"; "2"; "3"] = "1±2±3"
  /\ Parse Go.ParseFloat (join ["1"; "2"; "3"])
     = (zeroFloat64,
        Some (Go.Errorf "could not parse as approximate number: %v"
                [Go.OStrings ["1"; "2"; "3"]])).
Proof.
  split; [ reflexivity | ]. split; [ reflexivity | ].
  exact (Parse_of_parts Go.ParseFloat "1" ["2"; "3"] eq_refl).
Defined.

Lemma Map_from_ascii (c : ascii) (rest : string) :
  (Go.byteZ c <? 128) = true ->
  Go.Map_from strip (String c rest) 0
  = (if Go.IsSpace (Go.byteZ c) then "" else String c "")
      ++ Go.Map_from strip rest 0.
Proof.
  intros Hc. cbn [Go.Map_from Go.DecodeRuneInString]. rewrite Hc.
  unfold strip at 1 2.
  destruct (Go.IsSpace (Go.byteZ c)) eqn:Hsp; [ reflexivity | ].
  pose proof (byteZ_nonneg c) as H0.
  destruct (Z.ltb_spec (Go.byteZ c) 0) as [Hneg|_]; [ lia | ].
  unfold Go.EncodeRune. rewrite Hc, Zbyte_byteZ. reflexivity.
Qed.

Lemma string_append_assoc (a b c : string) : (a ++ b) ++ c = a ++ (b ++ c).
Proof. induction a as [|x a IH]; simpl; congruence. Qed.

Lemma Map_from_tidy (n : nat) : forall s r : string,
  (String.length s <= n)%nat -> tidy s = true ->
  Go.Map_from strip (s ++ r) 0
  = Go.Map_from strip s 0 ++ Go.Map_from strip r 0.
Proof.
  induction n as [|n IH]; intros s r Hn Hs.
  - destruct s; [ reflexivity | simpl in Hn; lia ].
  - destruct s as [|c s]; [ reflexivity | ].
    simpl in Hs. simpl String.length in Hn.
    destruct (Go.byteZ c <? 128) eqn:Hc.
    + change ((String c s) ++ r) with (String c (s ++ r)).
      rewrite !Map_from_ascii by assumption.
      rewrite IH by (assumption || lia). rewrite string_append_assoc. reflexivity.
    + destruct s as [|c2 s]; [ discriminate | ].
      apply Bool.andb_true_iff in Hs. destruct Hs as [Hs Ht].
      apply Bool.andb_true_iff in Hs. destruct Hs as [H1 H2].
      apply Z.eqb_eq in H1, H2.
      rewrite <- (Zbyte_byteZ c), <- (Zbyte_byteZ c2), H1, H2.
      change (String (Go.Zbyte 194) (String (Go.Zbyte 177) s))
        with ("±" ++ s).
      rewrite string_append_assoc, !Map_from_separator.
      simpl String.length in Hn.
      rewrite IH by (assumption || lia). symmetry. apply string_append_assoc.
Qed.

Lemma Map_from_blank (ws r : string) :
  blank ws = true ->
  Go.Map_from strip (ws ++ r) 0 = Go.Map_from strip r 0.
Proof.
  induction ws as [|c ws IH]; intros H; [ reflexivity | ].
  simpl in H. apply Bool.andb_true_iff in H. destruct H as [H Hws].
  apply Bool.andb_true_iff in H. destruct H as [Hc Hsp].
  change ((String c ws) ++ r) with (String c (ws ++ r)).
  rewrite Map_from_ascii by assumption. rewrite Hsp. simpl.
  apply IH. assumption.
Qed.

(** X19: [Parse] ignores ASCII white space wherever it stands in an input
    made of ASCII bytes and separators. *)
Theorem Parse_ignores_white_space
  (ParseFloat : string -> option float64) (s1 ws s2 : string) :
  tidy s1 = true -> blank ws = true ->
  Parse ParseFloat (s1 ++ ws ++ s2) = Parse ParseFloat (s1 ++ s2).
Proof.
  intros H1 Hws. unfold Parse. fold strip. unfold Go.Map.
  rewrite (Map_from_tidy _ s1 (ws ++ s2) (Nat.le_refl _) H1).
  rewrite (Map_from_blank ws s2 Hws).
  rewrite <- (Map_from_tidy _ s1 s2 (Nat.le_refl _) H1). reflexivity.
Qed.

Lemma Parse_ignores_white_space_witness :
  (tidy "4.2 ±" = true /\ blank "  " = true)
  /\ Parse Go.ParseFloat ("4.2 ±" ++ "  " ++ "0.3")
     = Parse Go.ParseFloat ("4.2 ±" ++ "0.3").
Proof.
  split; [ split; reflexivity | ].
  exact (Parse_ignores_white_space Go.ParseFloat "4.2 ±" "  " "0.3"
           eq_refl eq_refl).
Defined.

End ParseFacts.

(** X20: subtracting an approximate number with a finite value from itself
    gives the value [+0] and twice the delta, not an exact zero. *)
Theorem Sub_self_doubles_delta (a : Float64) :
  is_finite (val a) = true -> approximate a ->
  Float64.Value (Sub a a) = pZero
  /\ Float64.Delta (Sub a a) = (delta a + delta a)%f64.
Proof.
  intros Hf Ha. unfold Sub, New, Float64.Value, Float64.Delta; simpl.
  rewrite Abs_of_sign_clear by (apply add_sign_clear; exact Ha).
  split; [ | reflexivity ].
  destruct (val a) as [[]|[]| |s m e]; try discriminate; try reflexivity.
  unfold sub, SFsub. rewrite Z.sub_diag. reflexivity.
Qed.

Lemma Sub_self_doubles_delta_witness :
  (is_finite (val (New (of_Z 50) (of_ratio 1 2))) = true
   /\ approximate (New (of_Z 50) (of_ratio 1 2)))
  /\ Float64.Value (Sub (New (of_Z 50) (of_ratio 1 2))
                      (New (of_Z 50) (of_ratio 1 2))) = pZero
  /\ Float64.Delta (Sub (New (of_Z 50) (of_ratio 1 2))
                      (New (of_Z 50) (of_ratio 1 2)))
     = (Abs (of_ratio 1 2) + Abs (of_ratio 1 2))%f64.
Proof.
  split; [ split; reflexivity | ].
  exact (Sub_self_doubles_delta (New (of_Z 50) (of_ratio 1 2))
           eq_refl eq_refl).
Defined.

(** ** The package's tests, replayed on the embedding *)

Section Tests.

Local Open Scope string_scope.

Example TestParse_exact :
  Parse Go.ParseFloat "0" = (mkFloat64 (of_Z 0) (of_Z 0), None)
  /\ Parse Go.ParseFloat "1" = (mkFloat64 (of_Z 1) (of_Z 0), None)
  /\ Parse Go.ParseFloat "-1.23"
     = (mkFloat64 (of_ratio (-123) 100) (of_Z 0), None).
Proof. vm_compute. repeat split. Qed.

Example TestParse_inexact :
  Parse Go.ParseFloat "4.2±0.3"
  = (mkFloat64 (of_ratio 42 10) (of_ratio 3 10), None)
  /\ Parse Go.ParseFloat "4.2±-0.3"
     = (mkFloat64 (of_ratio 42 10) (of_ratio 3 10), None)
  /\ Parse Go.ParseFloat " 4.2 ± 0.3 "
     = (mkFloat64 (of_ratio 42 10) (of_ratio 3 10), None).
Proof. vm_compute. repeat split. Qed.

Example TestParse_malformed :
  Parse Go.ParseFloat "4.2±--0.3"
  = (zeroFloat64,
     Some (Go.Errorf "could not parse as delta float: %v"
             [Go.OStrings ["4.2"; "--0.3"]]))
  /\ Parse Go.ParseFloat "x±1"
     = (zeroFloat64,
        Some (Go.Errorf "could not parse as exact float: %v"
                [Go.OStrings ["x"; "1"]]))
  /\ Parse Go.ParseFloat "1±2±3"
     = (zeroFloat64,
        Some (Go.Errorf "could not parse as approximate number: %v"
                [Go.OStrings ["1"; "2"; "3"]])).
Proof. vm_compute. repeat split. Qed.

Example TestNew :
  New (of_Z 0) (of_Z 0) = mkFloat64 (of_Z 0) (of_Z 0)
  /\ New (of_Z 10) (of_Z (-1)) = mkFloat64 (of_Z 10) (of_Z 1)
  /\ New (of_Z 10) (of_Z 1) = New (of_Z 10) (of_Z (-1)).
Proof. vm_compute. repeat split. Qed.

Example TestNewMinMax :
  NewMinMax (of_Z 0) (of_Z 0) = (mkFloat64 (of_Z 0) (of_Z 0), None)
  /\ NewMinMax (of_Z 0) (of_Z 10) = (mkFloat64 (of_Z 5) (of_Z 5), None)
  /\ NewMinMax (of_Z 1) (of_Z 10)
     = (mkFloat64 (of_ratio 55 10) (of_ratio 45 10), None)
  /\ NewMinMax (of_Z 10) (of_Z 1)
     = (zeroFloat64,
        Some (Go.Errorf "min must be less or equal to max: min:%v, max:%v"
                [Go.OFloat (of_Z 10); Go.OFloat (of_Z 1)])).
Proof. vm_compute. repeat split. Qed.

Example TestOps :
  let one_two := New (of_Z 1) (of_Z 2) in
  let three_four := New (of_Z 3) (of_Z 4) in
  Add one_two three_four = New (of_Z 4) (of_Z 6)
  /\ Sub one_two three_four = New (of_Z (-2)) (of_Z 6)
  /\ Mul one_two three_four = New (of_Z 3) (of_Z 10)
  /\ (Div one_two three_four, None)
     = Parse Go.ParseFloat "0.3333333333333333±1.111111111111111".
Proof. vm_compute. repeat split. Qed.

Example TestRelOps_disjoint :
  let f := New (of_Z 0) (of_Z 1) in
  let t := New (of_Z 3) (of_Z 1) in
  Float64.Lt f t = true /\ Float64.Le f t = true
  /\ Float64.Gt f t = false /\ Float64.Ge f t = false
  /\ Overlap f t = false /\ Float64.RelDelta f = pInf.
Proof. vm_compute. repeat split. Qed.

Example TestRelOps_overlapping :
  let f := New (of_Z 1) (of_Z 1) in
  let t := New (of_Z 2) (of_Z 1) in
  Float64.Lt f t = false /\ Float64.Le f t = false
  /\ Float64.Gt f t = false /\ Float64.Ge f t = false
  /\ Overlap f t = true /\ Float64.RelDelta f = of_Z 1.
Proof. vm_compute. repeat split. Qed.

Example TestApply :
  let x := New (of_Z 1) (of_ratio 1 10) in
  let eps := of_ratio 1 1000 in
  Float64.Apply Sample.Log Sample.Exp x Sample.Log eps
  = New (of_Z 0) (of_ratio 1 10)
  /\ (Float64.Apply Sample.Log Sample.Exp x Sample.Exp eps, None)
     = Parse Go.ParseFloat "2.718281828459045±0.27182818284590454"
  /\ (Float64.Apply Sample.Log Sample.Exp (New (of_Z 10) (of_ratio 1 10))
        Sample.square eps, None)
     = Parse Go.ParseFloat "100±1.9999999999988916".
Proof. vm_compute. repeat split. Qed.

Example String_then_Parse :
  let y := New (of_Z 100) (of_ratio 4999999999997229 2500000000000000) in
  Float64.String Sample.fmtv y = "100±1.9999999999988916"
  /\ Parse Go.ParseFloat (Float64.String Sample.fmtv y) = (y, None).
Proof. vm_compute. repeat split. Qed.

End Tests.
